(** * Local cron operations: a shallow embedding of [cron/local-ops.ts]

    The file models the job collection of the scheduler, the operations the
    local (file based) mode exposes on it, and the properties the
    specification states about them.

    Conventions of the embedding.
    - Times and durations are integers ([Z], milliseconds).  [Date.now ()] is
      an explicit argument of every operation that reads the clock.
    - An optional property ([x?: T]) is an [option]; [undefined] is [None].
    - The persisted document is the list of its jobs.  An operation is a
      function from the collection it loaded to its result and to what it
      saved, if it saved at all.
    - [computeNextRunAtMs] lives in [./schedule.js], which is not part of
      the inspected sources: the operations take it as a parameter, and a
      separate definition follows the specification's description of it.
    - A [try { ... } catch (err)] around an operation turns an exception into
      the result [{ ok: false, error: String(err) }]; the evaluator is the
      only modelled source of exceptions. *)

From Stdlib Require Import ZArith Lia Sorted.
From stdpp Require Import base numbers strings option list gmap.

Local Open Scope Z_scope.

(** ** Data model *)

(** Modelled from the spec: the declarations of [./types.js] are missing.
    Section 3 gives the schedule as the tagged variant [at{atMs}],
    [every{intervalMs, anchorMs}], [cron{expression, timezone}]. *)
Inductive CronSchedule : Type :=
  | At (atMs : Z)
  | Every (intervalMs anchorMs : Z)
  | Cron (expression timezone : string).

Inductive RunStatus : Type := StatusOk | StatusError | StatusSkipped.

(** The [agentTurn] variant of a payload; [message] is its only required
    sub-field. *)
Record AgentTurn : Type := mkAgentTurn {
  message : string;
  model : option string;
  thinking : option string;
  timeoutSeconds : option Z;
  deliver : option bool;
  channel : option string;
  to : option string;
  bestEffortDeliver : option bool
}.

Inductive CronPayload : Type :=
  | SystemEvent (text : string)
  | AgentTurnPayload (turn : AgentTurn).

(** A payload patch names its variant; every sub-field is optional. *)
Record AgentTurnPatch : Type := mkAgentTurnPatch {
  patch_message : option string;
  patch_model : option string;
  patch_thinking : option string;
  patch_timeoutSeconds : option Z;
  patch_deliver : option bool;
  patch_channel : option string;
  patch_to : option string;
  patch_bestEffortDeliver : option bool
}.

Inductive CronPayloadPatch : Type :=
  | PatchSystemEvent (text : option string)
  | PatchAgentTurn (turn : AgentTurnPatch).

Record CronJobState : Type := mkState {
  nextRunAtMs : option Z;
  runningAtMs : option Z;
  lastRunAtMs : option Z;
  lastStatus : option RunStatus;
  lastError : option string;
  lastDurationMs : option Z
}.

(** [Partial<CronJobState>].  A key of a JavaScript object is absent
    ([None]) or present; a present key holds a value or [undefined]
    ([Some None]).  The distinction matters for an object spread, which
    copies every present key. *)
Record PartialState : Type := mkPartialState {
  ps_nextRunAtMs : option (option Z);
  ps_runningAtMs : option (option Z);
  ps_lastRunAtMs : option (option Z);
  ps_lastStatus : option (option RunStatus);
  ps_lastError : option (option string);
  ps_lastDurationMs : option (option Z)
}.

(** A stored job.  [enabled] is [None] in a job that [addJob] built from an
    input without the key: the spread [...input] copies no [enabled]. *)
Record CronJob : Type := mkJob {
  id : string;
  name : string;
  description : option string;
  enabled : option bool;
  schedule : CronSchedule;
  payload : CronPayload;
  deleteAfterRun : option bool;
  sessionTarget : string;
  wakeMode : string;
  agentId : option string;
  isolation : option string;
  createdAtMs : Z;
  updatedAtMs : Z;
  state : CronJobState
}.

(** [CronJobCreate]: a job without [id], [createdAtMs], [updatedAtMs], and
    with an optional partial [state].  The operations accept an input
    without [enabled]: [addJob] tests [input.enabled !== false]. *)
Record CronJobCreate : Type := mkCreate {
  input_name : string;
  input_description : option string;
  input_enabled : option bool;
  input_schedule : CronSchedule;
  input_payload : CronPayload;
  input_deleteAfterRun : option bool;
  input_sessionTarget : string;
  input_wakeMode : string;
  input_agentId : option string;
  input_isolation : option string;
  input_state : option PartialState
}.

(** [CronJobPatch]: every field optional, the payload as a payload patch. *)
Record CronJobPatch : Type := mkPatch {
  patch_name : option string;
  patch_description : option string;
  patch_enabled : option bool;
  patch_schedule : option CronSchedule;
  patch_sessionTarget : option string;
  patch_wakeMode : option string;
  patch_agentId : option string;
  patch_deleteAfterRun : option bool;
  patch_isolation : option string;
  patch_payload : option CronPayloadPatch;
  patch_state : option PartialState
}.

(** [{ status, error?, durationMs }], the argument of [markJobCompleted]. *)
Record RunResult : Type := mkResult {
  status : RunStatus;
  error : option string;
  durationMs : Z
}.

(** [LocalCronResult<T>]. *)
Inductive LocalCronResult (T : Type) : Type :=
  | Ok (data : T)
  | Failure (err : string).
Arguments Ok {T} data.
Arguments Failure {T} err.

(** What a call of the evaluator does: it returns or it throws;
    [Threw e] carries [String(err)]. *)
Inductive Outcome (A : Type) : Type :=
  | Returned (v : A)
  | Threw (err : string).
Arguments Returned {A} v.
Arguments Threw {A} err.

#[global] Instance RunStatus_eq_dec : EqDecision RunStatus.
Proof. solve_decision. Defined.
#[global] Instance CronSchedule_eq_dec : EqDecision CronSchedule.
Proof. solve_decision. Defined.
#[global] Instance AgentTurn_eq_dec : EqDecision AgentTurn.
Proof. solve_decision. Defined.
#[global] Instance CronPayload_eq_dec : EqDecision CronPayload.
Proof. solve_decision. Defined.
#[global] Instance CronJobState_eq_dec : EqDecision CronJobState.
Proof. solve_decision. Defined.
#[global] Instance CronJob_eq_dec : EqDecision CronJob.
Proof. solve_decision. Defined.

(** The collection a store document holds, [store.jobs]. *)
Abbreviation Jobs := (list CronJob).

(** An operation: from the loaded collection to the result and to the
    collection handed to [saveCronStore] ([None] when nothing is saved). *)
Definition Operation (T : Type) : Type := Jobs -> LocalCronResult T * option Jobs.

(** Modelled from the spec: [loadCronStore] and [saveCronStore] of
    [./store.js] are missing.  By section 4.2 a load returns the whole
    collection last saved and a save replaces it as a whole; so the document
    after an operation ran alone on [file] is what it saved, or [file]. *)
Definition stored {T} (op : Operation T) (file : Jobs) : Jobs :=
  default file (op file).2.

Definition result {T} (op : Operation T) (file : Jobs) : LocalCronResult T :=
  (op file).1.

(** ** JavaScript idioms *)

(** [if (x)] on [number | undefined]: [undefined] and [0] are falsy. *)
Definition truthy (x : option Z) : bool :=
  match x with
  | Some v => negb (v =? 0)
  | None => false
  end.

(** [if (x)] on [boolean | undefined]. *)
Definition truthyBool (x : option bool) : bool :=
  match x with
  | Some b => b
  | None => false
  end.

(** [x !== false] on [boolean | undefined]. *)
Definition notFalse (x : option bool) : bool :=
  match x with
  | Some false => false
  | _ => true
  end.

(** [a ?? b] where [b] may itself be [undefined]. *)
Definition nullish {A} (a b : option A) : option A :=
  match a with
  | Some v => Some v
  | None => b
  end.

(** [if (p !== undefined) field = p] for a key of a partial object. *)
Definition assignDefined {A} (p : option (option A)) (field : option A) : option A :=
  match p with
  | Some (Some v) => Some v
  | _ => field
  end.

(** The value a key gets from [{ key: computed, ...partial }]. *)
Definition spreadOver {A} (computed : option A) (p : option (option A)) : option A :=
  match p with
  | Some v => v
  | None => computed
  end.

(** [jobs.findIndex((j) => j.id === id)] together with [jobs[index]]. *)
Definition findIndex (jobId : string) (jobs : Jobs) : option (nat * CronJob) :=
  list_find (fun j => id j = jobId) jobs.

(** [jobs.filter((j) => j.id !== id)]. *)
Definition withoutId (jobId : string) (jobs : Jobs) : Jobs :=
  filter (fun j => id j <> jobId) jobs.

Definition notFound {T} (jobId : string) : LocalCronResult T :=
  Failure ("Job not found: " +:+ jobId).

(** [try { ... } catch (err) { return { ok: false, error: String(err) } }]:
    nothing was saved when the body threw before its [saveCronStore]. *)
#[global] Instance Outcome_ret : MRet Outcome := fun _ v => Returned v.
#[global] Instance Outcome_bind : MBind Outcome := fun _ _ k m =>
  match m with
  | Returned v => k v
  | Threw e => Threw e
  end.

Definition tryCatch {T} (body : Outcome (LocalCronResult T * option Jobs))
  : LocalCronResult T * option Jobs :=
  match body with
  | Returned r => r
  | Threw e => (Failure e, None)
  end.

Definition isDefined {A} (x : option A) : bool :=
  match x with
  | Some _ => true
  | None => false
  end.

(** ** Field updates of a job *)

Definition setNextRunAtMs (next : option Z) (st : CronJobState) : CronJobState :=
  {| nextRunAtMs := next;
     runningAtMs := runningAtMs st;
     lastRunAtMs := lastRunAtMs st;
     lastStatus := lastStatus st;
     lastError := lastError st;
     lastDurationMs := lastDurationMs st |}.

Definition setState (st : CronJobState) (job : CronJob) : CronJob :=
  {| id := id job;
     name := name job;
     description := description job;
     enabled := enabled job;
     schedule := schedule job;
     payload := payload job;
     deleteAfterRun := deleteAfterRun job;
     sessionTarget := sessionTarget job;
     wakeMode := wakeMode job;
     agentId := agentId job;
     isolation := isolation job;
     createdAtMs := createdAtMs job;
     updatedAtMs := updatedAtMs job;
     state := st |}.

(** [job.state.nextRunAtMs = next]. *)
Definition assignNextRun (next : option Z) (job : CronJob) : CronJob :=
  setState (setNextRunAtMs next (state job)) job.

(** [job.enabled = false; job.state.nextRunAtMs = undefined]. *)
Definition disableJob (job : CronJob) : CronJob :=
  {| id := id job;
     name := name job;
     description := description job;
     enabled := Some false;
     schedule := schedule job;
     payload := payload job;
     deleteAfterRun := deleteAfterRun job;
     sessionTarget := sessionTarget job;
     wakeMode := wakeMode job;
     agentId := agentId job;
     isolation := isolation job;
     createdAtMs := createdAtMs job;
     updatedAtMs := updatedAtMs job;
     state := setNextRunAtMs None (state job) |}.

(** The state [{ nextRunAtMs: computed, ...input.state }] of a new job. *)
Definition initialState (computed : option Z) (given : option PartialState) : CronJobState :=
  match given with
  | None => mkState computed None None None None None
  | Some p =>
      {| nextRunAtMs := spreadOver computed (ps_nextRunAtMs p);
         runningAtMs := spreadOver None (ps_runningAtMs p);
         lastRunAtMs := spreadOver None (ps_lastRunAtMs p);
         lastStatus := spreadOver None (ps_lastStatus p);
         lastError := spreadOver None (ps_lastError p);
         lastDurationMs := spreadOver None (ps_lastDurationMs p) |}
  end.

(** The block [if (patch.state) { ... }] of [updateJob]. *)
Definition patchState (given : option PartialState) (st : CronJobState) : CronJobState :=
  match given with
  | None => st
  | Some p =>
      {| nextRunAtMs := assignDefined (ps_nextRunAtMs p) (nextRunAtMs st);
         runningAtMs := assignDefined (ps_runningAtMs p) (runningAtMs st);
         lastRunAtMs := assignDefined (ps_lastRunAtMs p) (lastRunAtMs st);
         lastStatus := assignDefined (ps_lastStatus p) (lastStatus st);
         lastError := assignDefined (ps_lastError p) (lastError st);
         lastDurationMs := assignDefined (ps_lastDurationMs p) (lastDurationMs st) |}
  end.

(** [job.payload.kind === "agentTurn" ? job.payload : {}]. *)
Definition existingTurn (old : CronPayload) : option AgentTurn :=
  match old with
  | AgentTurnPayload turn => Some turn
  | SystemEvent _ => None
  end.

(** The block [if (patch.payload) { ... }] of [updateJob]. *)
Definition patchPayload (given : option CronPayloadPatch) (old : CronPayload) : CronPayload :=
  match given with
  | None => old
  | Some (PatchSystemEvent text) =>
      SystemEvent
        (default (match old with SystemEvent t => t | AgentTurnPayload _ => "" end) text)
  | Some (PatchAgentTurn p) =>
      let existing := existingTurn old in
      AgentTurnPayload
        {| message := default (default "" (message <$> existing)) (patch_message p);
           model := nullish (patch_model p) (existing ≫= model);
           thinking := nullish (patch_thinking p) (existing ≫= thinking);
           timeoutSeconds := nullish (patch_timeoutSeconds p) (existing ≫= timeoutSeconds);
           deliver := nullish (patch_deliver p) (existing ≫= deliver);
           channel := nullish (patch_channel p) (existing ≫= channel);
           to := nullish (patch_to p) (existing ≫= to);
           bestEffortDeliver :=
             nullish (patch_bestEffortDeliver p) (existing ≫= bestEffortDeliver) |}
  end.

(** The job after the three patch blocks and [job.updatedAtMs = now]. *)
Definition applyPatch (patch : CronJobPatch) (now : Z) (job : CronJob) : CronJob :=
  {| id := id job;
     name := default (name job) (patch_name patch);
     description := nullish (patch_description patch) (description job);
     enabled := nullish (patch_enabled patch) (enabled job);
     schedule := default (schedule job) (patch_schedule patch);
     payload := patchPayload (patch_payload patch) (payload job);
     deleteAfterRun := nullish (patch_deleteAfterRun patch) (deleteAfterRun job);
     sessionTarget := default (sessionTarget job) (patch_sessionTarget patch);
     wakeMode := default (wakeMode job) (patch_wakeMode patch);
     agentId := nullish (patch_agentId patch) (agentId job);
     isolation := nullish (patch_isolation patch) (isolation job);
     createdAtMs := createdAtMs job;
     updatedAtMs := now;
     state := patchState (patch_state patch) (state job) |}.

(** The first five assignments of [markJobCompleted] and [updatedAtMs]. *)
Definition recordRun (res : RunResult) (now : Z) (job : CronJob) : CronJob :=
  {| id := id job;
     name := name job;
     description := description job;
     enabled := enabled job;
     schedule := schedule job;
     payload := payload job;
     deleteAfterRun := deleteAfterRun job;
     sessionTarget := sessionTarget job;
     wakeMode := wakeMode job;
     agentId := agentId job;
     isolation := isolation job;
     createdAtMs := createdAtMs job;
     updatedAtMs := now;
     state :=
       {| nextRunAtMs := nextRunAtMs (state job);
          runningAtMs := None;
          lastRunAtMs := Some now;
          lastStatus := Some (status res);
          lastError := error res;
          lastDurationMs := Some (durationMs res) |} |}.

(** [if (job.enabled)]: a job stored without [enabled] counts as disabled. *)
Definition isEnabled (job : CronJob) : bool := truthyBool (enabled job).

(** [job.schedule.kind === "at"]. *)
Definition isOneShot (job : CronJob) : bool :=
  match schedule job with
  | At _ => true
  | _ => false
  end.

Definition isOk (s : RunStatus) : bool :=
  match s with
  | StatusOk => true
  | _ => false
  end.

(** The filter of [getDueJobs]. *)
Definition isDue (now : Z) (j : CronJob) : bool :=
  if negb (isEnabled j) then false
  else if truthy (runningAtMs (state j)) then false
  else match nextRunAtMs (state j) with
       | Some next => next <=? now
       | None => false
       end.

(** [jobs.sort((a, b) => (a.state.nextRunAtMs ?? 0) - (b.state.nextRunAtMs ?? 0))]:
    [Array.prototype.sort] is stable, so the outcome is the stable sort on
    the key, written here as an insertion sort. *)
Definition sortKey (j : CronJob) : Z := default 0 (nextRunAtMs (state j)).

Fixpoint insertByNextRun (j : CronJob) (sorted : Jobs) : Jobs :=
  match sorted with
  | [] => [j]
  | k :: rest =>
      if sortKey j <=? sortKey k then j :: sorted else k :: insertByNextRun j rest
  end.

Definition sortByNextRun (jobs : Jobs) : Jobs := foldr insertByNextRun [] jobs.

(** ** The operations of [local-ops.ts] *)

Section LocalOps.

(** [computeNextRunAtMs] of [./schedule.js]. *)
Variable computeNextRunAtMs : CronSchedule -> Z -> Outcome (option Z).

Definition computeNextRun (job : CronJob) (nowMs : Z) : Outcome (option Z) :=
  computeNextRunAtMs (schedule job) nowMs.

Definition listJobs (includeDisabled : bool) : Operation Jobs := fun jobs =>
  let shown := if includeDisabled then jobs else filter (fun j => isEnabled j) jobs in
  (Ok (sortByNextRun shown), None).

Definition getJob (jobId : string) : Operation CronJob := fun jobs =>
  match findIndex jobId jobs with
  | Some (_, job) => (Ok job, None)
  | None => (notFound jobId, None)
  end.

(** [uuid] is the value of [randomUUID ()], [now] that of [Date.now ()]. *)
Definition addJob (uuid : string) (input : CronJobCreate) (now : Z)
  : Operation CronJob := fun jobs =>
  tryCatch (
    computed ← (if notFalse (input_enabled input)
                then computeNextRunAtMs (input_schedule input) now
                else Returned None);
    let job :=
      {| id := uuid;
         name := input_name input;
         description := input_description input;
         enabled := input_enabled input;
         schedule := input_schedule input;
         payload := input_payload input;
         deleteAfterRun := input_deleteAfterRun input;
         sessionTarget := input_sessionTarget input;
         wakeMode := input_wakeMode input;
         agentId := input_agentId input;
         isolation := input_isolation input;
         createdAtMs := now;
         updatedAtMs := now;
         state := initialState computed (input_state input) |} in
    mret (Ok job, Some (jobs ++ [job]))).

Definition updateJob (jobId : string) (patch : CronJobPatch) (now : Z)
  : Operation CronJob := fun jobs =>
  tryCatch (
    match findIndex jobId jobs with
    | None => mret (notFound jobId, None)
    | Some (jobIndex, found) =>
        let job := applyPatch patch now found in
        job ←
          (if isEnabled job
              && (isDefined (patch_schedule patch) || isDefined (patch_enabled patch))
           then next ← computeNextRun job now; mret (assignNextRun next job)
           else if negb (isEnabled job) then mret (assignNextRun None job)
           else mret job);
        mret (Ok job, Some (<[jobIndex := job]> jobs))
    end).

Definition removeJob (jobId : string) : Operation bool := fun jobs =>
  let kept := withoutId jobId jobs in
  let removed := bool_decide (length kept < length jobs)%nat in
  (Ok removed, if removed then Some kept else None).

Definition getDueJobs (now : Z) : Operation Jobs := fun jobs =>
  (Ok (filter (fun j => isDue now j) jobs), None).

(** [startedAt] is the clock read by [markJobRunning] itself, [now] the one
    read afterwards inside [updateJob]. *)
Definition markJobRunning (jobId : string) (startedAt now : Z) : Operation CronJob :=
  updateJob jobId
    {| patch_name := None; patch_description := None; patch_enabled := None;
       patch_schedule := None; patch_sessionTarget := None; patch_wakeMode := None;
       patch_agentId := None; patch_deleteAfterRun := None; patch_isolation := None;
       patch_payload := None;
       patch_state := Some (mkPartialState None (Some (Some startedAt)) None None None None) |}
    now.

Definition markJobCompleted (jobId : string) (res : RunResult) (now : Z)
  : Operation CronJob := fun jobs =>
  tryCatch (
    match findIndex jobId jobs with
    | None => mret (notFound jobId, None)
    | Some (jobIndex, found) =>
        let job := recordRun res now found in
        if isOneShot job && isOk (status res) then
          if truthyBool (deleteAfterRun job) then
            mret (Ok job, Some (withoutId jobId jobs))
          else
            let job := disableJob job in
            mret (Ok job, Some (<[jobIndex := job]> jobs))
        else if isEnabled job then
          next ← computeNextRun job now;
          let job := assignNextRun next job in
          mret (Ok job, Some (<[jobIndex := job]> jobs))
        else
          mret (Ok job, Some (<[jobIndex := job]> jobs))
    end).

(** *** Histories of mutating calls *)

(** One call of a mutating operation, with the values it reads from its
    environment ([randomUUID ()], [Date.now ()]). *)
Inductive Call : Type :=
  | CallAdd (uuid : string) (input : CronJobCreate) (now : Z)
  | CallUpdate (jobId : string) (patch : CronJobPatch) (now : Z)
  | CallRemove (jobId : string)
  | CallMarkRunning (jobId : string) (startedAt now : Z)
  | CallMarkCompleted (jobId : string) (res : RunResult) (now : Z).

(** The document after the call ran on it, on its own. *)
Definition perform (c : Call) (file : Jobs) : Jobs :=
  match c with
  | CallAdd uuid input now => stored (addJob uuid input now) file
  | CallUpdate jobId patch now => stored (updateJob jobId patch now) file
  | CallRemove jobId => stored (removeJob jobId) file
  | CallMarkRunning jobId startedAt now => stored (markJobRunning jobId startedAt now) file
  | CallMarkCompleted jobId res now => stored (markJobCompleted jobId res now) file
  end.

Definition performAll (calls : list Call) (file : Jobs) : Jobs :=
  foldl (fun f c => perform c f) file calls.

End LocalOps.


(** ** The evaluator as the specification describes it *)

Section SpecEvaluator.

(** The next match of a cron expression in a time zone; the calendar
    arithmetic is outside this development. *)
Variable cronNext : string -> string -> Z -> Outcome (option Z).

(** Modelled from the spec: [computeNextRunAtMs] of [./schedule.js] is
    missing.  Section 4.1: [at{atMs}] gives [atMs] when it lies after the
    reference time and [undefined] otherwise; [every{intervalMs, anchorMs}]
    gives the smallest [anchorMs + k * intervalMs], [k >= 0], strictly
    after the reference time; [cron] gives the next match strictly after
    it, and a malformed expression fails.  The description of [every]
    presupposes a positive period; without one the model gives
    [undefined]. *)
Definition specNextRunAtMs (s : CronSchedule) (referenceTimeMs : Z)
  : Outcome (option Z) :=
  match s with
  | At atMs =>
      Returned (if referenceTimeMs <? atMs then Some atMs else None)
  | Every intervalMs anchorMs =>
      if intervalMs <=? 0 then Returned None
      else if referenceTimeMs <? anchorMs then Returned (Some anchorMs)
      else
        Returned
          (Some (anchorMs + ((referenceTimeMs - anchorMs) / intervalMs + 1) * intervalMs))
  | Cron expression timezone => cronNext expression timezone referenceTimeMs
  end.

End SpecEvaluator.

(** A cron handler for closed examples that use no cron schedule. *)
Definition noCron : string -> string -> Z -> Outcome (option Z) :=
  fun _ _ _ => Threw "ScheduleError".

(** ** Overlapping operations

    An operation awaits [loadCronStore], computes, and awaits
    [saveCronStore]; no lock is taken anywhere in [local-ops.ts].  Between
    the two awaits another caller (a second process on the same file, or
    another task of the same process) may run. *)

Inductive Task (T : Type) : Type :=
  | Pending (op : Operation T)
  | Loaded (op : Operation T) (snapshot : Jobs)
  | Finished (r : LocalCronResult T).
Arguments Pending {T} op.
Arguments Loaded {T} op snapshot.
Arguments Finished {T} r.

(** One step of a task on the shared document: the load, then the
    computation with its save; load and save as in [stored]. *)
Definition stepTask {T} (t : Task T) (file : Jobs) : Task T * Jobs :=
  match t with
  | Pending op => (Loaded op file, file)
  | Loaded op snapshot => (Finished (op snapshot).1, default file (op snapshot).2)
  | Finished r => (Finished r, file)
  end.

Inductive Turn : Type := First | Second.

Record Race (A B : Type) : Type := mkRace {
  first : Task A;
  second : Task B;
  document : Jobs
}.
Arguments mkRace {A B} first second document.
Arguments first {A B} r.
Arguments second {A B} r.
Arguments document {A B} r.

Definition stepRace {A B} (who : Turn) (r : Race A B) : Race A B :=
  match who with
  | First =>
      let '(t, file) := stepTask (first r) (document r) in mkRace t (second r) file
  | Second =>
      let '(t, file) := stepTask (second r) (document r) in mkRace (first r) t file
  end.

Definition runRace {A B} (turns : list Turn) (r : Race A B) : Race A B :=
  foldl (fun r who => stepRace who r) r turns.

Definition isFinished {T} (t : Task T) : bool :=
  match t with
  | Finished _ => true
  | _ => false
  end.

#[global] Instance Turn_eq_dec : EqDecision Turn.
Proof. solve_decision. Defined.

(** How many of the [turns] are [who]'s. *)
Definition turnsOf (who : Turn) (turns : list Turn) : nat :=
  length (filter (fun w => w = who) turns).

(** The steps a task still has to take. *)
Definition stepsLeft {T} (t : Task T) : nat :=
  match t with
  | Pending _ => 2
  | Loaded _ _ => 1
  | Finished _ => 0
  end.

(** A task of the operation [op] that, once finished, carries the result
    [r]. *)
Definition taskOf {T} (op : Operation T) (r : LocalCronResult T) (t : Task T) : Prop :=
  match t with
  | Pending op' | Loaded op' _ => op' = op
  | Finished r' => r' = r
  end.

(** Two operations are serialized on [file] when every run in which both
    finish leaves the document that one of the two sequential orders
    leaves. *)
Definition serialized {A B} (op1 : Operation A) (op2 : Operation B) (file : Jobs) : Prop :=
  forall turns,
    let r := runRace turns (mkRace (Pending op1) (Pending op2) file) in
    isFinished (first r) = true -> isFinished (second r) = true ->
    document r = stored op2 (stored op1 file) \/ document r = stored op1 (stored op2 file).

(** ** Properties the specification names *)

(** The due predicate of section 4.3. *)
Definition dueBySpec (referenceTimeMs : Z) (j : CronJob) : Prop :=
  enabled j = Some true
  /\ runningAtMs (state j) = None
  /\ from_option (fun next => next <= referenceTimeMs) False (nextRunAtMs (state j)).

#[global] Instance dueBySpec_dec now j : Decision (dueBySpec now j).
Proof.
  unfold dueBySpec. destruct (nextRunAtMs (state j)); simpl; apply _.
Defined.

(** Ascending by [nextRunAtMs], ties broken by [id]. *)
Definition dueBefore (a b : CronJob) : Prop :=
  match nextRunAtMs (state a), nextRunAtMs (state b) with
  | Some x, Some y => x < y \/ (x = y /\ String.leb (id a) (id b) = true)
  | _, _ => False
  end.

Definition orderedByNextRunThenId (jobs : Jobs) : Prop := StronglySorted dueBefore jobs.

(** [state.nextRunAtMs] is defined only while [enabled] is true. *)
Definition nextRunOnlyWhileEnabled (jobs : Jobs) : Prop :=
  Forall (fun j => enabled j <> Some true -> nextRunAtMs (state j) = None) jobs.

(** The discriminator of a payload and of a payload patch. *)
Inductive PayloadKind : Type := KindSystemEvent | KindAgentTurn.

Definition payloadKind (p : CronPayload) : PayloadKind :=
  match p with
  | SystemEvent _ => KindSystemEvent
  | AgentTurnPayload _ => KindAgentTurn
  end.

Definition patchKind (p : CronPayloadPatch) : PayloadKind :=
  match p with
  | PatchSystemEvent _ => KindSystemEvent
  | PatchAgentTurn _ => KindAgentTurn
  end.

(** A payload made of a patch alone: the required text or message defaults
    to the empty string, every other sub-field is the patch's. *)
Definition payloadOfPatch (p : CronPayloadPatch) : CronPayload :=
  match p with
  | PatchSystemEvent text => SystemEvent (default "" text)
  | PatchAgentTurn t =>
      AgentTurnPayload
        {| message := default "" (patch_message t);
           model := patch_model t;
           thinking := patch_thinking t;
           timeoutSeconds := patch_timeoutSeconds t;
           deliver := patch_deliver t;
           channel := patch_channel t;
           to := patch_to t;
           bestEffortDeliver := patch_bestEffortDeliver t |}
  end.

(** The patches [{ enabled: false }], [{ enabled: true }]. *)
Definition enabledPatch (b : bool) : CronJobPatch :=
  mkPatch None None (Some b) None None None None None None None None.



(** A creation call whose input states [enabled] and does not hand a
    disabled job a [nextRunAtMs] of its own. *)
Definition createsWithinInvariant (c : Call) : Prop :=
  match c with
  | CallAdd _ input _ =>
      is_Some (input_enabled input)
      /\ (input_enabled input = Some false ->
          forall v, input_state input ≫= ps_nextRunAtMs <> Some (Some v))
  | _ => True
  end.

(** A sub-field the patch leaves out keeps its value. *)
Definition keptIfAbsent {A B} (patched : option A) (old new : B) : Prop :=
  patched = None -> new = old.

(** The payload [new] is of the variant of [old], and every sub-field the
    patch [pp] leaves out has its value in [old]. *)
Definition carriedOver (pp : CronPayloadPatch) (old new : CronPayload) : Prop :=
  match pp, old, new with
  | PatchSystemEvent text, SystemEvent t, SystemEvent t' => keptIfAbsent text t t'
  | PatchAgentTurn p, AgentTurnPayload a, AgentTurnPayload a' =>
      keptIfAbsent (patch_message p) (message a) (message a')
      /\ keptIfAbsent (patch_model p) (model a) (model a')
      /\ keptIfAbsent (patch_thinking p) (thinking a) (thinking a')
      /\ keptIfAbsent (patch_timeoutSeconds p) (timeoutSeconds a) (timeoutSeconds a')
      /\ keptIfAbsent (patch_deliver p) (deliver a) (deliver a')
      /\ keptIfAbsent (patch_channel p) (channel a) (channel a')
      /\ keptIfAbsent (patch_to p) (to a) (to a')
      /\ keptIfAbsent (patch_bestEffortDeliver p) (bestEffortDeliver a) (bestEffortDeliver a')
  | _, _, _ => False
  end.

(** Modelled from the spec: what makes a schedule well-formed is not
    spelled out.  Section 3 calls [every] a fixed period from an anchor and
    section 4.1 has a malformed cron expression fail; a period that is not
    positive and an empty expression are taken as malformed. *)
Definition scheduleWellFormed (s : CronSchedule) : Prop :=
  match s with
  | At _ => True
  | Every intervalMs _ => 0 < intervalMs
  | Cron expression _ => expression <> ""
  end.

(** ** Further operations and notions of [local-ops.ts] *)

(** The data of [getStatus]: [{ enabled, storePath, jobs, nextWakeAtMs }]. *)
Record CronStatus : Type := mkStatus {
  status_enabled : bool;
  status_storePath : string;
  status_jobs : nat;
  nextWakeAtMs : option Z
}.

(** The reducer of [getStatus]: a job without a number in [nextRunAtMs]
    leaves the minimum as it is. *)
Definition earlierWake (min : option Z) (job : CronJob) : option Z :=
  match nextRunAtMs (state job) with
  | None => min
  | Some next =>
      match min with
      | None => Some next
      | Some m => Some (Z.min m next)
      end
  end.

(** [path] is the value of [resolveCronStorePath (opts?.storePath)]. *)
Definition getStatus (path : string) : Operation CronStatus := fun jobs =>
  let enabledJobs := filter (fun j => isEnabled j) jobs in
  (Ok {| status_enabled := true;
         status_storePath := path;
         status_jobs := length jobs;
         nextWakeAtMs := foldl earlierWake None enabledJobs |},
   None).

(** The job [getJob] finds, without the wrapping of the result. *)
Definition lookupJob (jobId : string) (jobs : Jobs) : option CronJob :=
  snd <$> findIndex jobId jobs.

(** An operation that hands nothing to [saveCronStore] when it fails. *)
Definition savesNothingOnFailure {T} (op : Operation T) : Prop :=
  forall jobs e, result op jobs = Failure e -> (op jobs).2 = None.

(** No stored job has the id a creation call draws. *)
Definition createsFreshId (c : Call) (jobs : Jobs) : Prop :=
  match c with
  | CallAdd uuid _ _ => forall j, j ∈ jobs -> id j <> uuid
  | _ => True
  end.

(** An evaluator whose times lie strictly after the reference time. *)
Definition strictlyAfter (eval : CronSchedule -> Z -> Outcome (option Z)) : Prop :=
  forall s t v, eval s t = Returned (Some v) -> t < v.

(** The order [listJobs] sorts by. *)
Definition byNextRun (a b : CronJob) : Prop := sortKey a <= sortKey b.

(** ** The context-pruning runtime registry and extension

    [runtime.ts] keeps a [WeakMap] from session manager objects to runtime
    values; [extension.ts] registers a handler of the [context] event that
    prunes the messages of the event.  Objects are known by their identity:
    the registry maps the identity of a session manager to the identity of
    a runtime object, and the fields of the runtime objects are kept apart,
    so that a runtime object registered twice is one object. *)

(** A [sessionManager: unknown] as [!x] and [typeof x] see it: a primitive
    ([undefined] and [null] among them), a function, or an object. *)
Inductive JsValue : Type :=
  | JsPrimitive
  | JsFunction (ref : positive)
  | JsObject (ref : positive).

(** What [pruneContextMessages] hands back: the array it was given, or
    another one. *)
Inductive PruneResult (Message : Type) : Type :=
  | SameArray
  | NewArray (next : list Message).
Arguments SameArray {Message}.
Arguments NewArray {Message} next.

Section ContextPruning.

(** [EffectiveContextPruningSettings] of [./settings.js], of which the
    handler reads [mode] and [ttlMs]; the messages of an event and the
    extension context, of which it reads [sessionManager]. *)
Variables Settings Message Ctx : Type.
Variable mode : Settings -> string.
Variable ttlMs : Settings -> Z.
Variable sessionManager : Ctx -> JsValue.

(** [pruneContextMessages] of [./pruner.js], called with [messages],
    [settings], [ctx], [isToolPrunable] and [contextWindowTokensOverride]. *)
Variable pruneContextMessages :
  list Message -> Settings -> Ctx -> (string -> bool) -> option Z -> PruneResult Message.

(** [ContextPruningRuntimeValue]; [null] and [undefined] are [None]. *)
Record ContextPruningRuntimeValue : Type := mkRuntime {
  settings : Settings;
  contextWindowTokens : option Z;
  isToolPrunable : string -> bool;
  lastCacheTouchAt : option Z
}.

(** The module state: [REGISTRY], and the runtime objects by identity. *)
Record PruningState : Type := mkPruning {
  REGISTRY : gmap positive positive;
  runtimeAt : positive -> ContextPruningRuntimeValue
}.

(** [!sessionManager || typeof sessionManager !== "object"] is false. *)
Definition registryKey (sessionManager : JsValue) : option positive :=
  match sessionManager with
  | JsObject ref => Some ref
  | _ => None
  end.

Definition setContextPruningRuntime (sessionManager : JsValue) (value : option positive)
    (st : PruningState) : PruningState :=
  match registryKey sessionManager with
  | None => st
  | Some key =>
      match value with
      | None => mkPruning (delete key (REGISTRY st)) (runtimeAt st)
      | Some runtime => mkPruning (<[key := runtime]> (REGISTRY st)) (runtimeAt st)
      end
  end.

Definition getContextPruningRuntime (sessionManager : JsValue) (st : PruningState)
  : option positive :=
  match registryKey sessionManager with
  | None => None
  | Some key => REGISTRY st !! key
  end.

(** [runtime.lastCacheTouchAt = Date.now ()] on the object [runtime]. *)
Definition touch (runtime : positive) (now : Z) (st : PruningState) : PruningState :=
  mkPruning (REGISTRY st)
    (fun r =>
       if decide (r = runtime) then
         {| settings := settings (runtimeAt st r);
            contextWindowTokens := contextWindowTokens (runtimeAt st r);
            isToolPrunable := isToolPrunable (runtimeAt st r);
            lastCacheTouchAt := Some now |}
       else runtimeAt st r).

(** The two early returns of the [cache-ttl] block; [now] is the clock read
    in the second condition. *)
Definition cacheStillHot (runtime : ContextPruningRuntimeValue) (now : Z) : bool :=
  let ttl := ttlMs (settings runtime) in
  let lastTouch := lastCacheTouchAt runtime in
  if negb (truthy lastTouch) || (ttl <=? 0) then true
  else (0 <? ttl) && (now - default 0 lastTouch <? ttl).

Definition isCacheTtl (runtime : ContextPruningRuntimeValue) : bool :=
  bool_decide (mode (settings runtime) = "cache-ttl").

(** The handler [contextPruningExtension] registers for the [context]
    event: its return value ([undefined] is [None], [{ messages: next }] is
    [Some next]) and the module state it leaves.  [nowCheck] is the clock
    read for the comparison with [ttlMs], [nowTouch] the one stored after a
    pruning. *)
Definition onContext (messages : list Message) (ctx : Ctx) (nowCheck nowTouch : Z)
    (st : PruningState) : option (list Message) * PruningState :=
  match getContextPruningRuntime (sessionManager ctx) st with
  | None => (None, st)
  | Some ref =>
      let runtime := runtimeAt st ref in
      if isCacheTtl runtime && cacheStillHot runtime nowCheck then (None, st)
      else
        match pruneContextMessages messages (settings runtime) ctx
                (isToolPrunable runtime) (contextWindowTokens runtime) with
        | SameArray => (None, st)
        | NewArray next =>
            (Some next, if isCacheTtl runtime then touch ref nowTouch st else st)
        end
  end.

(** One [context] event with the clock readings of its handling. *)
Record ContextCall : Type := mkContextCall {
  call_messages : list Message;
  call_ctx : Ctx;
  call_nowCheck : Z;
  call_nowTouch : Z
}.

(** The return values of the handler over a run of events, and the state
    at the end. *)
Fixpoint onContexts (calls : list ContextCall) (st : PruningState)
  : list (option (list Message)) * PruningState :=
  match calls with
  | [] => ([], st)
  | c :: rest =>
      let '(r, st1) := onContext (call_messages c) (call_ctx c) (call_nowCheck c)
                         (call_nowTouch c) st in
      let '(rs, st2) := onContexts rest st1 in
      (r :: rs, st2)
  end.

End ContextPruning.

Arguments mkRuntime {Settings} settings contextWindowTokens isToolPrunable lastCacheTouchAt.
Arguments settings {Settings} c.
Arguments contextWindowTokens {Settings} c.
Arguments isToolPrunable {Settings} c.
Arguments lastCacheTouchAt {Settings} c.
Arguments mkPruning {Settings} REGISTRY runtimeAt.
Arguments REGISTRY {Settings} p.
Arguments runtimeAt {Settings} p.
Arguments setContextPruningRuntime {Settings} sessionManager value st.
Arguments getContextPruningRuntime {Settings} sessionManager st.
Arguments touch {Settings} runtime now st.
Arguments mkContextCall {Message Ctx} call_messages call_ctx call_nowCheck call_nowTouch.
Arguments call_messages {Message Ctx} c.
Arguments call_ctx {Message Ctx} c.
Arguments call_nowCheck {Message Ctx} c.
Arguments call_nowTouch {Message Ctx} c.

(** ** The command [cron complete] ([cron-cli], local mode only) *)

(** What an action of the command line leaves: a value printed with
    [defaultRuntime.log], or the text of [String(err)] handed to
    [defaultRuntime.error] before [defaultRuntime.exit (1)]. *)
Inductive CliOutcome (T : Type) : Type :=
  | Logged (data : T)
  | ExitedWith (message : string).
Arguments Logged {T} data.
Arguments ExitedWith {T} message.

(** [["ok", "error", "skipped"].includes (status)]. *)
Definition statusOfOption (s : string) : option RunStatus :=
  if String.eqb s "ok" then Some StatusOk
  else if String.eqb s "error" then Some StatusError
  else if String.eqb s "skipped" then Some StatusSkipped
  else None.

(** [isLocalMode]: [Boolean (opts.local)]. *)
Definition isLocalMode (local : option bool) : bool := truthyBool local.

(** The action of [cron complete <id>].  [parseInt] stands for
    [Number.parseInt (_, 10)], with [None] for [NaN]; [NaN || 0] and
    [0 || 0] are both 0. *)
Definition completeCommand (parseInt : string -> option Z)
    (eval : CronSchedule -> Z -> Outcome (option Z))
    (jobId : string) (local : option bool) (statusOption : string)
    (errorOption : option string) (duration : string) (now : Z) (jobs : Jobs)
  : CliOutcome CronJob * Jobs :=
  if negb (isLocalMode local) then
    (ExitedWith "Error: --complete command requires --local mode", jobs)
  else
    match statusOfOption statusOption with
    | None => (ExitedWith "Error: --status must be ok, error, or skipped", jobs)
    | Some st =>
        let durationMs := default 0 (parseInt duration) in
        let op := markJobCompleted eval jobId (mkResult st errorOption durationMs) now in
        match result op jobs with
        | Ok job => (Logged job, stored op jobs)
        | Failure e => (ExitedWith ("Error: " +:+ e), stored op jobs)
        end
    end.

(** ** The browser agent ([browser-agent.mjs])

    Texts are sequences of UTF-16 code units, the unit of [length] and
    [slice]. *)

Definition codeUnits (s : string) : list N :=
  (fun c => N.of_nat (Ascii.nat_of_ascii c)) <$> String.list_ascii_of_string s.

Definition MAX_SNAPSHOT_CHARS : N := 50000.

(** The text a snapshot longer than [MAX_SNAPSHOT_CHARS] ends with: two
    line feeds and the notice. *)
Definition truncationNotice : list N :=
  [10%N; 10%N] ++ codeUnits "[...TRUNCATED - page too large]".

(** [if (text.length > MAX_SNAPSHOT_CHARS) text = text.slice (0, MAX) + notice]. *)
Definition clipSnapshot (text : list N) : list N :=
  if (MAX_SNAPSHOT_CHARS <? N.of_nat (length text))%N
  then take (N.to_nat MAX_SNAPSHOT_CHARS) text ++ truncationNotice
  else text.

(** What a snapshot call of the page does: it resolves to a text (or to a
    nullish value), or it rejects with an error of some message. *)
Inductive SnapshotCall : Type :=
  | Resolved (text : option (list N))
  | Rejected (message : list N).

(** [takeSnapshot]: [snapshotForAI] is absent when the page has no function
    [_snapshotForAI], and holds [result?.full] when the call resolves;
    [ariaSnapshot] is the call of the fallback. *)
Definition takeSnapshot (snapshotForAI : option SnapshotCall) (ariaSnapshot : SnapshotCall)
  : list N :=
  match snapshotForAI with
  | Some (Resolved full) => clipSnapshot (default [] full)
  | _ =>
      match ariaSnapshot with
      | Resolved snapshot => clipSnapshot (default [] snapshot)
      | Rejected message => codeUnits "[Error getting snapshot: " ++ message ++ codeUnits "]"
      end
  end.

(** [s.slice (n)] on a text whose first [n] units are single bytes. *)
Fixpoint sliceFrom (n : nat) (s : string) : string :=
  match n, s with
  | O, _ => s
  | S n', String _ rest => sliceFrom n' rest
  | S _, EmptyString => EmptyString
  end.

(** [resolveRef], as the selector it hands to [page.locator].  The
    prefixes tested and cut are ASCII, so the bytes of the text behave as
    its code units do. *)
Definition resolveRef (ref : string) : string :=
  let normalized := ref in
  let normalized :=
    if String.prefix "@" normalized then sliceFrom 1 normalized else normalized in
  let normalized :=
    if String.prefix "ref=" normalized then sliceFrom 4 normalized else normalized in
  "aria-ref=" +:+ normalized.

(** ** Example data *)

(** An enabled, idle job with a system event as payload. *)
Definition plainJob (jobId : string) (s : CronSchedule) (next : option Z) : CronJob :=
  {| id := jobId; name := jobId; description := None; enabled := Some true;
     schedule := s; payload := SystemEvent "tick"; deleteAfterRun := None;
     sessionTarget := "main"; wakeMode := "now"; agentId := None;
     isolation := None; createdAtMs := 0; updatedAtMs := 0;
     state := mkState next None None None None None |}.

(** The creation input of such a job. *)
Definition plainInput (s : CronSchedule) (on : bool) (st : option PartialState)
  : CronJobCreate :=
  {| input_name := "job"; input_description := None; input_enabled := Some on;
     input_schedule := s; input_payload := SystemEvent "tick";
     input_deleteAfterRun := None; input_sessionTarget := "main";
     input_wakeMode := "now"; input_agentId := None; input_isolation := None;
     input_state := st |}.

(** Scenario A of the specification, up to the start of the run: job X
    with [every{intervalMs: 60000, anchorMs: 0}] is created at [t = 0] and
    marked running at [t = 60000]. *)
Definition scenarioA : Jobs :=
  performAll (specNextRunAtMs noCron)
    [CallAdd "X" (plainInput (Every 60000 0) true None) 0;
     CallMarkRunning "X" 60000 60000]
    [].

(** An enabled job whose payload is an agent turn. *)
Definition turnJob : CronJob :=
  {| id := "T"; name := "turn"; description := None; enabled := Some true;
     schedule := Every 60000 0;
     payload :=
       AgentTurnPayload
         (mkAgentTurn "summarise" (Some "small") None (Some 30) None None None None);
     deleteAfterRun := None; sessionTarget := "isolated"; wakeMode := "now";
     agentId := None; isolation := None; createdAtMs := 0; updatedAtMs := 0;
     state := mkState (Some 60000) None None None None None |}.

(** A patch that changes the model of an agent turn and nothing else. *)
Definition modelPatch : CronJobPatch :=
  mkPatch None None None None None None None None None
    (Some (PatchAgentTurn
             (mkAgentTurnPatch None (Some "large") None None None None None None)))
    None.

(** Settings as a pair of mode and time to live, messages as numbers, a
    context that is its session manager, and a pruner that drops the first
    message. *)
Definition dropFirst (messages : list nat) (_ : string * Z) (_ : JsValue)
    (_ : string -> bool) (_ : option Z) : PruneResult nat :=
  match messages with
  | [] => SameArray
  | _ :: rest => NewArray rest
  end.

Definition ttlRuntime (touched : option Z) : ContextPruningRuntimeValue (string * Z) :=
  mkRuntime ("cache-ttl", 300000) None (fun _ => true) touched.

(** One session manager, object 1, registered with the runtime object 7. *)
Definition oneSession (touched : option Z) : PruningState (string * Z) :=
  setContextPruningRuntime (JsObject 1) (Some 7%positive)
    (mkPruning ∅ (fun _ => ttlRuntime touched)).

Definition handle (messages : list nat) (nowCheck nowTouch : Z)
    (st : PruningState (string * Z)) : option (list nat) * PruningState (string * Z) :=
  onContext (string * Z) nat JsValue fst snd (fun ctx => ctx) dropFirst
    messages (JsObject 1) nowCheck nowTouch st.

(** * Properties *)

(** ** Auxiliary facts *)

(** [if (job.enabled)] holds of the jobs stored with [enabled: true]. *)
Lemma isEnabled_true j : isEnabled j = true <-> enabled j = Some true.
Proof. unfold isEnabled. destruct (enabled j) as [[|]|]; cbn; split; congruence. Qed.

Lemma isEnabled_false j : isEnabled j = false <-> enabled j <> Some true.
Proof. unfold isEnabled. destruct (enabled j) as [[|]|]; cbn; split; congruence. Qed.

Lemma findIndex_Some jobId jobs i j :
  findIndex jobId jobs = Some (i, j) ->
  jobs !! i = Some j /\ id j = jobId
  /\ forall k y, jobs !! k = Some y -> (k < i)%nat -> id y <> jobId.
Proof. unfold findIndex. intros H. by apply list_find_Some in H. Qed.

Lemma findIndex_None jobId jobs :
  findIndex jobId jobs = None -> forall j, j ∈ jobs -> id j <> jobId.
Proof.
  unfold findIndex. intros H j Hj. rewrite list_find_None in H.
  rewrite Forall_forall in H. by apply H.
Qed.

(** Writing back a job of the same [id] at the index [findIndex] gave
    leaves that index the first one with this [id]. *)
Lemma findIndex_insert jobId jobs i j j' :
  findIndex jobId jobs = Some (i, j) -> id j' = jobId ->
  findIndex jobId (<[i := j']> jobs) = Some (i, j').
Proof.
  intros H Hid. apply findIndex_Some in H as (Hi & _ & Hbefore).
  unfold findIndex. apply list_find_Some. split; [|split; [done|]].
  - apply list_lookup_insert_eq. by eapply lookup_lt_Some.
  - intros k y Hk Hlt. rewrite list_lookup_insert_ne in Hk by lia. eauto.
Qed.


Lemma elem_of_withoutId jobId jobs j :
  j ∈ withoutId jobId jobs <-> id j <> jobId /\ j ∈ jobs.
Proof. unfold withoutId. by rewrite list_elem_of_filter. Qed.

Lemma insertByNextRun_elem j x sorted :
  x ∈ insertByNextRun j sorted <-> x = j \/ x ∈ sorted.
Proof.
  induction sorted as [|k rest IH]; simpl.
  - rewrite list_elem_of_singleton, elem_of_nil. tauto.
  - destruct (sortKey j <=? sortKey k); rewrite !elem_of_cons; [tauto|].
    rewrite IH. tauto.
Qed.

(** Sorting shows the same jobs. *)
Lemma sortByNextRun_elem x jobs : x ∈ sortByNextRun jobs <-> x ∈ jobs.
Proof.
  induction jobs as [|j rest IH]; simpl; [done|].
  rewrite insertByNextRun_elem, IH, elem_of_cons. tauto.
Qed.

(** On a collection without the time stamp [0] in [runningAtMs], the
    filter of [getDueJobs] decides the due predicate. *)
Lemma isDue_dueBySpec now j :
  runningAtMs (state j) <> Some 0 -> (isDue now j <-> dueBySpec now j).
Proof.
  unfold isDue, dueBySpec, truthy, isEnabled. intros Hrun.
  destruct (enabled j) as [[|]|]; simpl.
  2, 3: split; [intros []|intros [? _]; discriminate].
  destruct (runningAtMs (state j)) as [r|]; simpl.
  - destruct (Z.eqb_spec r 0) as [->|Hr]; simpl; [done|].
    split; [intros []|intros (_ & ? & _); discriminate].
  - destruct (nextRunAtMs (state j)) as [next|]; simpl.
    + destruct (Z.leb_spec next now); simpl; split; intros; try done.
      intuition lia.
    + split; [intros []|tauto].
Qed.

(** What [updateJob] returns and stores, by cases. *)
Lemma updateJob_cases eval jobId patch now jobs :
  match findIndex jobId jobs with
  | None => updateJob eval jobId patch now jobs = (notFound jobId, None)
  | Some (i, found) =>
      let job := applyPatch patch now found in
      if isEnabled job
         && (isDefined (patch_schedule patch) || isDefined (patch_enabled patch))
      then
        match eval (schedule job) now with
        | Returned next =>
            updateJob eval jobId patch now jobs
            = (Ok (assignNextRun next job), Some (<[i := assignNextRun next job]> jobs))
        | Threw e => updateJob eval jobId patch now jobs = (Failure e, None)
        end
      else if negb (isEnabled job) then
        updateJob eval jobId patch now jobs
        = (Ok (assignNextRun None job), Some (<[i := assignNextRun None job]> jobs))
      else
        updateJob eval jobId patch now jobs = (Ok job, Some (<[i := job]> jobs))
  end.
Proof.
  unfold updateJob. destruct (findIndex jobId jobs) as [[i found]|]; [|done].
  cbn -[applyPatch assignNextRun].
  destruct (isEnabled (applyPatch patch now found)
            && (isDefined (patch_schedule patch) || isDefined (patch_enabled patch))).
  - unfold computeNextRun.
    by destruct (eval (schedule (applyPatch patch now found)) now).
  - by destruct (negb (isEnabled (applyPatch patch now found))).
Qed.

(** What [markJobCompleted] returns and stores, by cases. *)
Lemma markJobCompleted_cases eval jobId res now jobs :
  match findIndex jobId jobs with
  | None => markJobCompleted eval jobId res now jobs = (notFound jobId, None)
  | Some (i, found) =>
      let job := recordRun res now found in
      if isOneShot found && isOk (status res) then
        if truthyBool (deleteAfterRun found) then
          markJobCompleted eval jobId res now jobs = (Ok job, Some (withoutId jobId jobs))
        else
          markJobCompleted eval jobId res now jobs
          = (Ok (disableJob job), Some (<[i := disableJob job]> jobs))
      else if isEnabled found then
        match eval (schedule found) now with
        | Returned next =>
            markJobCompleted eval jobId res now jobs
            = (Ok (assignNextRun next job), Some (<[i := assignNextRun next job]> jobs))
        | Threw e => markJobCompleted eval jobId res now jobs = (Failure e, None)
        end
      else
        markJobCompleted eval jobId res now jobs = (Ok job, Some (<[i := job]> jobs))
  end.
Proof.
  unfold markJobCompleted. destruct (findIndex jobId jobs) as [[i found]|]; [|done].
  change (isOneShot (recordRun res now found)) with (isOneShot found).
  change (deleteAfterRun (recordRun res now found)) with (deleteAfterRun found).
  change (isEnabled (recordRun res now found)) with (isEnabled found).
  unfold computeNextRun.
  change (schedule (recordRun res now found)) with (schedule found).
  cbn -[recordRun assignNextRun disableJob].
  destruct (isOneShot found && isOk (status res)).
  - by destruct (truthyBool (deleteAfterRun found)).
  - destruct (isEnabled found); [|done].
    by destruct (eval (schedule found) now).
Qed.

(** ** Due selection *)

(** C1, as stated, fails: both jobs are due at 300 and [getDueJobs]
    returns them in stored order, the job due at 200 before the job due at
    100. *)
Lemma getDueJobs_keeps_stored_order :
  let later := plainJob "b" (Every 100 0) (Some 200) in
  let earlier := plainJob "a" (Every 100 0) (Some 100) in
  result (getDueJobs 300) [later; earlier] = Ok [later; earlier]
  /\ dueBySpec 300 later /\ dueBySpec 300 earlier
  /\ ~ orderedByNextRunThenId [later; earlier].
Proof.
  simpl. split; [reflexivity|]. split; [|split].
  - unfold dueBySpec; simpl. repeat split; lia.
  - unfold dueBySpec; simpl. repeat split; lia.
  - intros Hs. inversion Hs as [|? ? _ Hall]; subst.
    inversion Hall as [|? ? Hlt _]; subst.
    unfold dueBefore in Hlt; simpl in Hlt. lia.
Qed.

(** C1, amended: on every collection in which no job carries the time
    stamp 0 in [runningAtMs], and at every reference time, [getDueJobs]
    returns exactly the jobs that are enabled, not running, and have a
    [nextRunAtMs] at or before the reference time, in the order of the
    stored collection; it saves nothing. *)
Theorem getDueJobs_selects (jobs : Jobs) (now : Z) :
  Forall (fun j => runningAtMs (state j) <> Some 0) jobs ->
  getDueJobs now jobs = (Ok (filter (dueBySpec now) jobs), None).
Proof.
  intros Hrun. unfold getDueJobs. f_equal. f_equal.
  induction Hrun as [|j rest Hj _ IH]; [done|].
  rewrite !filter_cons, IH.
  destruct (decide (isDue now j)) as [Hd|Hd], (decide (dueBySpec now j)) as [Hs|Hs];
    try done; exfalso; apply (isDue_dueBySpec now) in Hj; tauto.
Qed.

Lemma getDueJobs_selects_witness :
  let later := plainJob "b" (Every 100 0) (Some 200) in
  let earlier := plainJob "a" (Every 100 0) (Some 100) in
  getDueJobs 150 [later; earlier] = (Ok [earlier], None).
Proof.
  intros later earlier.
  rewrite (getDueJobs_selects [later; earlier] 150).
  - reflexivity.
  - repeat constructor; discriminate.
Defined.

(** ** A running job is not due *)

Section Running.

Variable eval : CronSchedule -> Z -> Outcome (option Z).




(** A successful [updateJob] writes the patched job back at its index, with
some [nextRunAtMs]. *)
Lemma updateJob_inv jobId patch now jobs :
  match findIndex jobId jobs with
  | None => updateJob eval jobId patch now jobs = (notFound jobId, None)
  | Some (i, found) =>
      (exists e, updateJob eval jobId patch now jobs = (Failure e, None))
      \/ exists next,
          updateJob eval jobId patch now jobs
          = (Ok (assignNextRun next (applyPatch patch now found)),
             Some (<[i := assignNextRun next (applyPatch patch now found)]> jobs))
  end.
Proof.
  pose proof (updateJob_cases eval jobId patch now jobs) as Hc.
  destruct (findIndex jobId jobs) as [[i found]|]; [|done]. cbn zeta in Hc.
  destruct (isEnabled (applyPatch patch now found)
            && (isDefined (patch_schedule patch) || isDefined (patch_enabled patch))).
  - destruct (eval (schedule (applyPatch patch now found)) now); eauto.
  - destruct (negb (isEnabled (applyPatch patch now found))); [eauto|].
    right. exists (nextRunAtMs (state (applyPatch patch now found))).
    rewrite Hc. by destruct (applyPatch patch now found) as [? ? ? ? ? ? ? ? ? ? ? ? ? []].
Qed.









End Running.




(** ** Completion of a run *)

Lemma getJob_inv jobId jobs found :
  result (getJob jobId) jobs = Ok found <-> exists i, findIndex jobId jobs = Some (i, found).
Proof.
  unfold result, getJob. destruct (findIndex jobId jobs) as [[i j]|]; cbn.
  - split; [intros [= ->]; eauto|intros [k [= _ ->]]; done].
  - split; [discriminate|intros [k [=]]].
Qed.

Lemma findIndex_withoutId jobId jobs : findIndex jobId (withoutId jobId jobs) = None.
Proof.
  unfold findIndex. apply list_find_None, Forall_forall.
  intros j Hj. by apply elem_of_withoutId in Hj as [Hne _].
Qed.

(** C3: completing a one-shot job with status [ok].  With
    [deleteAfterRun] true, no job with this id is left in the store, hence
    none in [list(includeDisabled = true)]; otherwise the job stays in the
    store, disabled and with [nextRunAtMs] unset. *)
Theorem oneShot_completed_ok
    (eval : CronSchedule -> Z -> Outcome (option Z))
    (jobs : Jobs) (jobId : string) (res : RunResult) (now atMs : Z)
    (found : CronJob) :
  result (getJob jobId) jobs = Ok found ->
  schedule found = At atMs ->
  status res = StatusOk ->
  let after := stored (markJobCompleted eval jobId res now) jobs in
  (deleteAfterRun found = Some true ->
     (exists job, result (markJobCompleted eval jobId res now) jobs = Ok job)
     /\ (forall j, j ∈ after -> id j <> jobId)
     /\ (exists shown, result (listJobs true) after = Ok shown
                       /\ forall j, j ∈ shown -> id j <> jobId)
     /\ result (getJob jobId) after = notFound jobId)
  /\ (deleteAfterRun found <> Some true ->
      exists job,
        result (markJobCompleted eval jobId res now) jobs = Ok job
        /\ id job = jobId /\ enabled job = Some false /\ nextRunAtMs (state job) = None
        /\ result (getJob jobId) after = Ok job
        /\ exists shown, result (listJobs true) after = Ok shown /\ job ∈ shown).
Proof.
  intros [i Hfind]%getJob_inv Hat Hok after. subst after. unfold stored, result.
  pose proof (markJobCompleted_cases eval jobId res now jobs) as Hinv.
  rewrite Hfind in Hinv. cbn zeta in Hinv.
  unfold isOneShot in Hinv. rewrite Hat, Hok in Hinv. cbn [andb isOk] in Hinv.
  split.
  - intros Hdel. rewrite Hdel in Hinv. cbn [truthyBool] in Hinv. rewrite Hinv.
    cbn -[recordRun sortByNextRun withoutId].
    split; [eauto|]. split; [|split].
    + intros j Hj. by apply elem_of_withoutId in Hj as [Hne _].
    + eexists. split; [reflexivity|]. intros j Hj.
      apply (proj1 (sortByNextRun_elem _ _)) in Hj.
      by apply elem_of_withoutId in Hj as [Hne _].
    + unfold getJob. by rewrite findIndex_withoutId.
  - intros Hkeep.
    assert (truthyBool (deleteAfterRun found) = false) as Hfalse.
    { destruct (deleteAfterRun found) as [[|]|]; done. }
    rewrite Hfalse in Hinv. rewrite Hinv. cbn -[recordRun disableJob sortByNextRun].
    pose proof Hfind as (Hi & Hid & _)%findIndex_Some.
    eexists. split; [reflexivity|]. split; [exact Hid|].
    split; [reflexivity|]. split; [reflexivity|]. split.
    + unfold getJob. by erewrite findIndex_insert.
    + eexists. split; [reflexivity|]. apply sortByNextRun_elem.
      apply list_elem_of_insert. by eapply lookup_lt_Some.
Qed.

Lemma oneShot_completed_ok_witness :
  let eval := specNextRunAtMs noCron in
  let Y := plainJob "Y" (At 5000) (Some 5000) in
  let jobs := [plainJob "X" (Every 60000 0) (Some 60000); Y] in
  let after := stored (markJobCompleted eval "Y" (mkResult StatusOk None 10) 5000) jobs in
  exists job,
    result (markJobCompleted eval "Y" (mkResult StatusOk None 10) 5000) jobs = Ok job
    /\ id job = "Y" /\ enabled job = Some false /\ nextRunAtMs (state job) = None
    /\ result (getJob "Y") after = Ok job
    /\ exists shown, result (listJobs true) after = Ok shown /\ job ∈ shown.
Proof.
  intros eval Y jobs.
  apply (oneShot_completed_ok eval jobs "Y" (mkResult StatusOk None 10) 5000 5000 Y);
    [reflexivity|reflexivity|reflexivity|discriminate].
Defined.

(** The evaluator of the specification on a periodic schedule: the value is
    a point of the grid [anchorMs + k * intervalMs], lies strictly after the
    reference time, and no earlier grid point does. *)
Lemma specNextRunAtMs_every cronNext intervalMs anchorMs referenceTimeMs :
  0 < intervalMs ->
  exists t k,
    specNextRunAtMs cronNext (Every intervalMs anchorMs) referenceTimeMs = Returned (Some t)
    /\ 0 <= k /\ t = anchorMs + k * intervalMs /\ referenceTimeMs < t
    /\ forall k', 0 <= k' -> referenceTimeMs < anchorMs + k' * intervalMs ->
                  t <= anchorMs + k' * intervalMs.
Proof.
  intros Hpos. unfold specNextRunAtMs.
  destruct (Z.leb_spec intervalMs 0) as [|_]; [lia|].
  destruct (Z.ltb_spec referenceTimeMs anchorMs) as [Hlt|Hge].
  - exists anchorMs, 0. repeat split; solve [lia | intros; nia].
  - set (q := (referenceTimeMs - anchorMs) / intervalMs).
    pose proof (Z.div_mod (referenceTimeMs - anchorMs) intervalMs ltac:(lia)) as Hdm.
    pose proof (Z.mod_pos_bound (referenceTimeMs - anchorMs) intervalMs Hpos) as Hmod.
    fold q in Hdm.
    assert (0 <= q) by (apply Z.div_pos; lia).
    exists (anchorMs + (q + 1) * intervalMs), (q + 1).
    repeat split; try lia.
    intros k' Hk' Hafter.
    assert (q < k') as Hq.
    { apply (Z.mul_lt_mono_pos_l intervalMs); lia. }
    apply Z.add_le_mono_l, Z.mul_le_mono_nonneg_r; lia.
Qed.

Lemma specNextRunAtMs_at cronNext atMs referenceTimeMs :
  specNextRunAtMs cronNext (At atMs) referenceTimeMs
  = Returned (if decide (referenceTimeMs < atMs) then Some atMs else None).
Proof.
  cbn. destruct (Z.ltb_spec referenceTimeMs atMs); by case_decide; try lia.
Qed.

(** The first step of scenario A: created at [t = 0], job X is due next at
    60000, and from [t = 60000] on it is running. *)
Example scenarioA_running :
  exists X, scenarioA = [X]
            /\ nextRunAtMs (state X) = Some 60000
            /\ runningAtMs (state X) = Some 60000.
Proof. eexists. split; [reflexivity|]. split; reflexivity. Qed.

(** C4, as stated, fails in its example: completed at [t = 60500], the
    job of scenario A is due next at 120000, the first point of the grid
    [0 + k * 60000] after the completion time, and not at 120500. *)
Lemma scenarioA_completed_next_run :
  exists job,
    result (markJobCompleted (specNextRunAtMs noCron) "X"
              (mkResult StatusOk None 500) 60500) scenarioA = Ok job
    /\ specNextRunAtMs noCron (schedule job) 60500 = Returned (Some 120000)
    /\ nextRunAtMs (state job) = Some 120000
    /\ nextRunAtMs (state job) <> Some 120500.
Proof.
  eexists. split; [reflexivity|]. split; [reflexivity|]. split; [reflexivity|].
  discriminate.
Qed.

(** C4, amended: when the completed job is not a one-shot job completed
    with [ok] and is enabled, [markJobCompleted] stores as [nextRunAtMs]
    what the evaluator returns for the job's schedule at the clock reading
    of the completion, whatever the time the run was due or started; it
    clears [runningAtMs] and records the run.  In scenario A, completed at
    [t = 60500], the evaluator of the specification gives 120000. *)
Theorem markJobCompleted_recomputes_at_completion :
  (forall (eval : CronSchedule -> Z -> Outcome (option Z)) (jobs : Jobs)
          (jobId : string) (res : RunResult) (now : Z) (found : CronJob)
          (next : option Z),
      result (getJob jobId) jobs = Ok found ->
      isOneShot found && isOk (status res) = false ->
      enabled found = Some true ->
      eval (schedule found) now = Returned next ->
      exists job,
        result (markJobCompleted eval jobId res now) jobs = Ok job
        /\ result (getJob jobId) (stored (markJobCompleted eval jobId res now) jobs) = Ok job
        /\ nextRunAtMs (state job) = next
        /\ enabled job = Some true
        /\ runningAtMs (state job) = None
        /\ lastRunAtMs (state job) = Some now
        /\ lastStatus (state job) = Some (status res))
  /\ (exists job,
        result (markJobCompleted (specNextRunAtMs noCron) "X"
                  (mkResult StatusOk None 500) 60500) scenarioA = Ok job
        /\ nextRunAtMs (state job) = Some 120000
        /\ runningAtMs (state job) = None
        /\ lastStatus (state job) = Some StatusOk).
Proof.
  split.
  - intros eval jobs jobId res now found next [i Hfind]%getJob_inv Hnot Hen Hev.
    unfold stored, result.
    pose proof (markJobCompleted_cases eval jobId res now jobs) as Hinv.
    assert (isEnabled found = true) as Hon by (unfold isEnabled; by rewrite Hen).
    rewrite Hfind in Hinv. cbn zeta in Hinv. rewrite Hnot, Hon, Hev in Hinv.
    rewrite Hinv. cbn -[recordRun assignNextRun].
    pose proof Hfind as (Hi & Hid & _)%findIndex_Some.
    eexists. split; [reflexivity|]. split.
    + unfold getJob. by erewrite findIndex_insert.
    + cbn. by rewrite Hen.
  - eexists. split; [reflexivity|]. repeat split.
Qed.

Lemma markJobCompleted_recomputes_at_completion_witness :
  let eval := specNextRunAtMs noCron in
  let res := mkResult StatusError (Some "boom") 700 in
  exists job,
    result (markJobCompleted eval "X" res 200000) scenarioA = Ok job
    /\ result (getJob "X") (stored (markJobCompleted eval "X" res 200000) scenarioA) = Ok job
    /\ nextRunAtMs (state job) = Some 240000
    /\ enabled job = Some true
    /\ runningAtMs (state job) = None
    /\ lastRunAtMs (state job) = Some 200000
    /\ lastStatus (state job) = Some StatusError.
Proof.
  intros eval res.
  eapply (proj1 markJobCompleted_recomputes_at_completion eval scenarioA "X" res 200000);
    reflexivity.
Defined.

(** ** The invariant on [nextRunAtMs] *)

(** C5, as stated, fails for [create]: a disabled job created with
    [state: { nextRunAtMs: 5 }] is stored disabled with [nextRunAtMs] set. *)
Lemma addJob_disabled_with_next_run :
  let given := mkPartialState (Some (Some 5)) None None None None None in
  let input := plainInput (Every 60000 0) false (Some given) in
  nextRunOnlyWhileEnabled []
  /\ ~ nextRunOnlyWhileEnabled (stored (addJob (specNextRunAtMs noCron) "u" input 0) []).
Proof.
  cbn. split; [constructor|]. intros H.
  apply Forall_cons in H as [H _]. cbn in H.
  by specialize (H ltac:(discriminate)).
Qed.

(** A job created from an input without [enabled]: the evaluator is
    consulted, the job is stored without [enabled] and with the computed
    [nextRunAtMs], and it never passes the filter of [getDueJobs]. *)
Example addJob_without_enabled :
  let input :=
    mkCreate "job" None None (Every 60000 0) (SystemEvent "tick") None "main" "now"
      None None None in
  exists job,
    addJob (specNextRunAtMs noCron) "u" input 0 [] = (Ok job, Some [job])
    /\ enabled job = None
    /\ nextRunAtMs (state job) = Some 60000
    /\ forall t, isDue t job = false.
Proof. eexists. split; [reflexivity|]. repeat split. Qed.

Section Invariant.

Variable eval : CronSchedule -> Z -> Outcome (option Z).

Lemma nextRunOnlyWhileEnabled_insert jobs i j :
  nextRunOnlyWhileEnabled jobs ->
  (enabled j <> Some true -> nextRunAtMs (state j) = None) ->
  nextRunOnlyWhileEnabled (<[i := j]> jobs).
Proof. intros Hinv Hj. by apply Forall_insert. Qed.

Lemma nextRunOnlyWhileEnabled_withoutId jobId jobs :
  nextRunOnlyWhileEnabled jobs -> nextRunOnlyWhileEnabled (withoutId jobId jobs).
Proof.
  unfold nextRunOnlyWhileEnabled. rewrite !Forall_forall.
  intros Hinv j Hj. apply elem_of_withoutId in Hj as [_ Hj]. by apply Hinv.
Qed.

Lemma nextRunOnlyWhileEnabled_updateJob jobId patch now jobs :
  nextRunOnlyWhileEnabled jobs ->
  nextRunOnlyWhileEnabled (stored (updateJob eval jobId patch now) jobs).
Proof.
  intros Hinv. unfold stored.
  pose proof (updateJob_cases eval jobId patch now jobs) as Hc.
  destruct (findIndex jobId jobs) as [[i found]|]; [|by rewrite Hc].
  cbn zeta in Hc.
  destruct (isEnabled (applyPatch patch now found)) eqn:Hen; cbn [andb negb] in Hc.
  - apply isEnabled_true in Hen.
    destruct (isDefined (patch_schedule patch) || isDefined (patch_enabled patch)).
    + destruct (eval (schedule (applyPatch patch now found)) now); rewrite Hc; [|done].
      apply nextRunOnlyWhileEnabled_insert; [done|].
      change (enabled (assignNextRun v (applyPatch patch now found)))
        with (enabled (applyPatch patch now found)). congruence.
    + rewrite Hc. apply nextRunOnlyWhileEnabled_insert; [done|]. congruence.
  - rewrite Hc. by apply nextRunOnlyWhileEnabled_insert.
Qed.

Lemma nextRunOnlyWhileEnabled_markJobCompleted jobId res now jobs :
  nextRunOnlyWhileEnabled jobs ->
  nextRunOnlyWhileEnabled (stored (markJobCompleted eval jobId res now) jobs).
Proof.
  intros Hinv. unfold stored.
  pose proof (markJobCompleted_cases eval jobId res now jobs) as Hc.
  destruct (findIndex jobId jobs) as [[i found]|] eqn:Hfind; [|by rewrite Hc].
  apply findIndex_Some in Hfind as (Hi & _ & _).
  assert (enabled found <> Some true -> nextRunAtMs (state found) = None) as Hfound.
  { unfold nextRunOnlyWhileEnabled in Hinv. rewrite Forall_lookup in Hinv. eauto. }
  cbn zeta in Hc.
  destruct (isOneShot found && isOk (status res)).
  - destruct (truthyBool (deleteAfterRun found)); rewrite Hc.
    + by apply nextRunOnlyWhileEnabled_withoutId.
    + by apply nextRunOnlyWhileEnabled_insert.
  - destruct (isEnabled found) eqn:Hen.
    + apply isEnabled_true in Hen.
      destruct (eval (schedule found) now); rewrite Hc; [|done].
      apply nextRunOnlyWhileEnabled_insert; [done|]. cbn. congruence.
    + rewrite Hc. apply nextRunOnlyWhileEnabled_insert; [done|]. cbn. auto.
Qed.

Lemma nextRunOnlyWhileEnabled_addJob uuid input now jobs :
  is_Some (input_enabled input) ->
  (input_enabled input = Some false ->
   forall v, input_state input ≫= ps_nextRunAtMs <> Some (Some v)) ->
  nextRunOnlyWhileEnabled jobs ->
  nextRunOnlyWhileEnabled (stored (addJob eval uuid input now) jobs).
Proof.
  intros [on Hen] Hgiven Hinv. unfold stored, addJob. rewrite Hen.
  destruct on; cbn [notFalse].
  - destruct (eval (input_schedule input) now) as [computed|e]; cbn; [|done].
    apply Forall_app. split; [done|]. constructor; [|constructor]. cbn. congruence.
  - cbn. apply Forall_app. split; [done|]. constructor; [|constructor]. cbn.
    intros _. specialize (Hgiven Hen).
    destruct (input_state input) as [p|]; cbn in *; [|done].
    destruct (ps_nextRunAtMs p) as [[v|]|]; cbn; try done. by destruct (Hgiven v).
Qed.

Lemma nextRunOnlyWhileEnabled_removeJob jobId jobs :
  nextRunOnlyWhileEnabled jobs ->
  nextRunOnlyWhileEnabled (stored (removeJob jobId) jobs).
Proof.
  intros Hinv. unfold stored, removeJob. cbn.
  case_bool_decide; cbn; [|done]. by apply nextRunOnlyWhileEnabled_withoutId.
Qed.

End Invariant.

(** C5, amended: [update], [remove], [markRunning] and [markCompleted]
    keep the invariant that a job has a [nextRunAtMs] only while its
    [enabled] is true, and so does [create] when its input states [enabled],
    unless the input is disabled and carries a [state.nextRunAtMs] of its
    own.  What [create] stores for an input without [enabled] is left
    open. *)
Theorem nextRunOnlyWhileEnabled_preserved
    (eval : CronSchedule -> Z -> Outcome (option Z)) (c : Call) (jobs : Jobs) :
  createsWithinInvariant c ->
  nextRunOnlyWhileEnabled jobs ->
  nextRunOnlyWhileEnabled (perform eval c jobs).
Proof.
  destruct c as [uuid input now|jobId patch now|jobId|jobId startedAt now|jobId res now];
    cbn [createsWithinInvariant perform]; intros Hc Hinv.
  - destruct Hc as [Hstated Hgiven]. by apply nextRunOnlyWhileEnabled_addJob.
  - by apply nextRunOnlyWhileEnabled_updateJob.
  - by apply nextRunOnlyWhileEnabled_removeJob.
  - by apply nextRunOnlyWhileEnabled_updateJob.
  - by apply nextRunOnlyWhileEnabled_markJobCompleted.
Qed.

Lemma nextRunOnlyWhileEnabled_preserved_witness :
  nextRunOnlyWhileEnabled
    (perform (specNextRunAtMs noCron)
       (CallAdd "Z" (plainInput (At 5000) false None) 100) scenarioA).
Proof.
  apply (nextRunOnlyWhileEnabled_preserved (specNextRunAtMs noCron)
           (CallAdd "Z" (plainInput (At 5000) false None) 100) scenarioA).
  - cbn. split; [by eexists|discriminate].
  - repeat constructor. intros H. by destruct H.
Defined.

(** ** Payload patches *)

Lemma patchPayload_same_kind pp old :
  patchKind pp = payloadKind old -> carriedOver pp old (patchPayload (Some pp) old).
Proof.
  destruct pp as [text|p], old as [t|a]; cbn; try discriminate; intros _.
  - by intros ->.
  - repeat split; by intros ->.
Qed.

Lemma nullish_None {A} (a : option A) : nullish a None = a.
Proof. by destruct a. Qed.

Lemma patchPayload_other_kind pp old :
  patchKind pp <> payloadKind old -> patchPayload (Some pp) old = payloadOfPatch pp.
Proof.
  destruct pp as [text|p], old as [t|a]; cbn; intros H;
    rewrite ?nullish_None; try reflexivity; by destruct H.
Qed.

(** C6: an update that carries a payload patch, on an existing job, with an
    evaluator that returns.  If the patch is of the kind of the job's
    payload, the new payload is of that kind too and every sub-field the
    patch leaves out keeps its value; if the kinds differ, the new payload is
    the one made of the patch alone, with no sub-field of the old payload. *)
Theorem updateJob_payload_patch
    (eval : CronSchedule -> Z -> Outcome (option Z))
    (jobs : Jobs) (jobId : string) (patch : CronJobPatch) (now : Z)
    (found : CronJob) (pp : CronPayloadPatch) (next : option Z) :
  result (getJob jobId) jobs = Ok found ->
  patch_payload patch = Some pp ->
  eval (default (schedule found) (patch_schedule patch)) now = Returned next ->
  exists job,
    result (updateJob eval jobId patch now) jobs = Ok job
    /\ result (getJob jobId) (stored (updateJob eval jobId patch now) jobs) = Ok job
    /\ (patchKind pp = payloadKind (payload found) ->
        carriedOver pp (payload found) (payload job))
    /\ (patchKind pp <> payloadKind (payload found) ->
        payload job = payloadOfPatch pp).
Proof.
  intros [i Hfind]%getJob_inv Hpp Hev. unfold stored, result.
  pose proof (updateJob_cases eval jobId patch now jobs) as Hc.
  rewrite Hfind in Hc. cbn zeta in Hc.
  pose proof Hfind as (Hi & Hid & _)%findIndex_Some.
  assert (forall n, payload (assignNextRun n (applyPatch patch now found))
                    = patchPayload (Some pp) (payload found)) as Hpay.
  { intros n. cbn. by rewrite Hpp. }
  assert (forall job, id job = jobId ->
            payload job = patchPayload (Some pp) (payload found) ->
            result (getJob jobId) (<[i := job]> jobs) = Ok job
            /\ (patchKind pp = payloadKind (payload found) ->
                carriedOver pp (payload found) (payload job))
            /\ (patchKind pp <> payloadKind (payload found) ->
                payload job = payloadOfPatch pp)) as Hgoal.
  { intros job Hjid ->. split; [|split].
    - unfold result, getJob. by erewrite findIndex_insert.
    - apply patchPayload_same_kind.
    - apply patchPayload_other_kind. }
  change (schedule (applyPatch patch now found))
    with (default (schedule found) (patch_schedule patch)) in Hc.
  rewrite Hev in Hc.
  destruct (isEnabled (applyPatch patch now found)
            && (isDefined (patch_schedule patch) || isDefined (patch_enabled patch))).
  - rewrite Hc. eexists. split; [reflexivity|]. by apply Hgoal.
  - destruct (negb (isEnabled (applyPatch patch now found))); rewrite Hc.
    + eexists. split; [reflexivity|]. by apply Hgoal.
    + eexists. split; [reflexivity|]. apply Hgoal; [done|]. apply (Hpay None).
Qed.

Lemma updateJob_payload_patch_witness :
  let eval := specNextRunAtMs noCron in
  exists job,
    result (updateJob eval "T" modelPatch 1000) [turnJob] = Ok job
    /\ result (getJob "T") (stored (updateJob eval "T" modelPatch 1000) [turnJob]) = Ok job
    /\ (KindAgentTurn = payloadKind (payload turnJob) ->
        carriedOver
          (PatchAgentTurn (mkAgentTurnPatch None (Some "large") None None None None None None))
          (payload turnJob) (payload job))
    /\ (KindAgentTurn <> payloadKind (payload turnJob) ->
        payload job
        = payloadOfPatch
            (PatchAgentTurn
               (mkAgentTurnPatch None (Some "large") None None None None None None))).
Proof.
  intros eval.
  apply (updateJob_payload_patch eval [turnJob] "T" modelPatch 1000 turnJob
           (PatchAgentTurn (mkAgentTurnPatch None (Some "large") None None None None None None))
           (Some 60000)); reflexivity.
Defined.

(** ** Disabling and enabling *)

(** C7: on an existing job, [update(id, { enabled: false })] succeeds,
    clears [nextRunAtMs] and leaves the schedule as it was; a following
    [update(id, { enabled: true })] at a clock reading [later] stores what
    the evaluator returns for that schedule at [later]. *)
Theorem disable_then_enable
    (eval : CronSchedule -> Z -> Outcome (option Z))
    (jobs : Jobs) (jobId : string) (now : Z) (found : CronJob) :
  result (getJob jobId) jobs = Ok found ->
  exists off,
    result (updateJob eval jobId (enabledPatch false) now) jobs = Ok off
    /\ result (getJob jobId) (stored (updateJob eval jobId (enabledPatch false) now) jobs)
       = Ok off
    /\ enabled off = Some false
    /\ nextRunAtMs (state off) = None
    /\ schedule off = schedule found
    /\ forall later next,
        eval (schedule found) later = Returned next ->
        exists on,
          result (updateJob eval jobId (enabledPatch true) later)
            (stored (updateJob eval jobId (enabledPatch false) now) jobs) = Ok on
          /\ result (getJob jobId)
               (stored (updateJob eval jobId (enabledPatch true) later)
                  (stored (updateJob eval jobId (enabledPatch false) now) jobs)) = Ok on
          /\ enabled on = Some true
          /\ nextRunAtMs (state on) = next
          /\ schedule on = schedule found.
Proof.
  intros [i Hfind]%getJob_inv.
  pose proof Hfind as (Hi & Hid & _)%findIndex_Some.
  pose proof (updateJob_cases eval jobId (enabledPatch false) now jobs) as Hoff.
  rewrite Hfind in Hoff. cbn -[assignNextRun applyPatch] in Hoff.
  set (off := assignNextRun None (applyPatch (enabledPatch false) now found)) in *.
  assert (findIndex jobId (<[i := off]> jobs) = Some (i, off)) as Hfind'.
  { eapply findIndex_insert; [exact Hfind|exact Hid]. }
  exists off. unfold stored, result. rewrite Hoff. cbn [fst snd from_option Datatypes.id].
  split; [done|]. split; [unfold getJob; by rewrite Hfind'|].
  split; [done|]. split; [done|]. split; [done|].
  intros later next Hev.
  pose proof (updateJob_cases eval jobId (enabledPatch true) later (<[i := off]> jobs)) as Hon.
  rewrite Hfind' in Hon. cbn -[assignNextRun applyPatch] in Hon.
  change (schedule (applyPatch (enabledPatch true) later off)) with (schedule found) in Hon.
  rewrite Hev in Hon. rewrite Hon. cbn [fst snd from_option Datatypes.id].
  eexists. split; [reflexivity|]. split; [|done].
  unfold getJob. erewrite findIndex_insert; done.
Qed.

Lemma disable_then_enable_witness :
  let eval := specNextRunAtMs noCron in
  let jobs := [plainJob "x" (Every 60000 0) (Some 60000)] in
  exists off,
    result (updateJob eval "x" (enabledPatch false) 1000) jobs = Ok off
    /\ result (getJob "x") (stored (updateJob eval "x" (enabledPatch false) 1000) jobs)
       = Ok off
    /\ enabled off = Some false
    /\ nextRunAtMs (state off) = None
    /\ schedule off = Every 60000 0
    /\ forall later next,
        eval (Every 60000 0) later = Returned next ->
        exists on,
          result (updateJob eval "x" (enabledPatch true) later)
            (stored (updateJob eval "x" (enabledPatch false) 1000) jobs) = Ok on
          /\ result (getJob "x")
               (stored (updateJob eval "x" (enabledPatch true) later)
                  (stored (updateJob eval "x" (enabledPatch false) 1000) jobs)) = Ok on
          /\ enabled on = Some true
          /\ nextRunAtMs (state on) = next
          /\ schedule on = Every 60000 0.
Proof.
  intros eval jobs.
  apply (disable_then_enable eval jobs "x" 1000 (plainJob "x" (Every 60000 0) (Some 60000))).
  reflexivity.
Defined.

(** Re-enabled at [t = 300000], a job created at [t = 0] is due next at
    360000, the evaluator's value at the time of the call. *)
Example enable_uses_call_time :
  let eval := specNextRunAtMs noCron in
  let jobs := stored (addJob eval "x" (plainInput (Every 60000 0) true None) 0) [] in
  let off := stored (updateJob eval "x" (enabledPatch false) 1000) jobs in
  exists on,
    result (updateJob eval "x" (enabledPatch true) 300000) off = Ok on
    /\ nextRunAtMs (state on) = Some 360000.
Proof. eexists. split; reflexivity. Qed.

(** ** Creation *)

(** C8, as stated, fails: a job whose schedule has the period 0 is stored
    as it was given, with an [ok] result. *)
Lemma addJob_stores_malformed_schedule :
  let input := plainInput (Every 0 0) false None in
  ~ scheduleWellFormed (input_schedule input)
  /\ exists job,
       addJob (specNextRunAtMs noCron) "u" input 1000 [] = (Ok job, Some [job])
       /\ schedule job = Every 0 0.
Proof.
  cbn. split; [lia|]. eexists. split; reflexivity.
Qed.

(** C8, amended: [create] checks nothing about its input.  Whenever the
    evaluator returns, or is not consulted because the input is disabled,
    the call succeeds and appends to the stored collection a job that
    carries the given schedule and payload unchanged, the fresh id and the
    clock reading as both time stamps; the only failure is an exception of
    the evaluator, reported as [{ ok: false, error }] with nothing saved. *)
Theorem addJob_does_not_validate
    (eval : CronSchedule -> Z -> Outcome (option Z))
    (uuid : string) (input : CronJobCreate) (now : Z) (jobs : Jobs) :
  match (if notFalse (input_enabled input) then eval (input_schedule input) now
         else Returned None) with
  | Returned computed =>
      exists job,
        addJob eval uuid input now jobs = (Ok job, Some (jobs ++ [job]))
        /\ id job = uuid
        /\ schedule job = input_schedule input
        /\ payload job = input_payload input
        /\ enabled job = input_enabled input
        /\ createdAtMs job = now /\ updatedAtMs job = now
  | Threw e => addJob eval uuid input now jobs = (Failure e, None)
  end.
Proof.
  unfold addJob.
  destruct (if notFalse (input_enabled input) then eval (input_schedule input) now
            else Returned None) as [computed|e]; cbn; [|done].
  eexists. split; [reflexivity|]. repeat split.
Qed.

(** C10: a [create] whose input carries a [state] object, with an evaluator
    that returns [computed] (or a disabled input, for which [computed] is
    [undefined]).  Every key present in that object is stored as given; in
    particular a given [nextRunAtMs] replaces [computed], whatever the
    evaluator returned, and [computed] is stored only when the key is
    absent. *)
Theorem addJob_state_overrides
    (eval : CronSchedule -> Z -> Outcome (option Z))
    (uuid : string) (input : CronJobCreate) (now : Z) (jobs : Jobs)
    (given : PartialState) (computed : option Z) :
  input_state input = Some given ->
  (if notFalse (input_enabled input) then eval (input_schedule input) now else Returned None)
  = Returned computed ->
  exists job,
    result (addJob eval uuid input now) jobs = Ok job
    /\ stored (addJob eval uuid input now) jobs = jobs ++ [job]
    /\ (forall v, ps_nextRunAtMs given = Some v -> nextRunAtMs (state job) = v)
    /\ (ps_nextRunAtMs given = None -> nextRunAtMs (state job) = computed)
    /\ (forall v, ps_runningAtMs given = Some v -> runningAtMs (state job) = v)
    /\ (forall v, ps_lastRunAtMs given = Some v -> lastRunAtMs (state job) = v)
    /\ (forall v, ps_lastStatus given = Some v -> lastStatus (state job) = v)
    /\ (forall v, ps_lastError given = Some v -> lastError (state job) = v)
    /\ (forall v, ps_lastDurationMs given = Some v -> lastDurationMs (state job) = v).
Proof.
  intros Hgiven Hev. unfold result, stored, addJob. rewrite Hev, Hgiven. cbn.
  eexists. split; [reflexivity|]. split; [reflexivity|]. cbn.
  repeat split; intros; by match goal with H : _ = _ |- _ => rewrite H end.
Qed.

(** A job stored with a [nextRunAtMs] the evaluator never produced: created
    at [t = 0] the evaluator gives 60000, the caller gave 42, and 42 is
    stored. *)
Lemma addJob_state_overrides_witness :
  let eval := specNextRunAtMs noCron in
  let given := mkPartialState (Some (Some 42)) None None None None None in
  let input := plainInput (Every 60000 0) true (Some given) in
  eval (input_schedule input) 0 = Returned (Some 60000)
  /\ exists job,
       result (addJob eval "u" input 0) [] = Ok job
       /\ stored (addJob eval "u" input 0) [] = [] ++ [job]
       /\ (forall v, ps_nextRunAtMs given = Some v -> nextRunAtMs (state job) = v)
       /\ (ps_nextRunAtMs given = None -> nextRunAtMs (state job) = Some 60000)
       /\ (forall v, ps_runningAtMs given = Some v -> runningAtMs (state job) = v)
       /\ (forall v, ps_lastRunAtMs given = Some v -> lastRunAtMs (state job) = v)
       /\ (forall v, ps_lastStatus given = Some v -> lastStatus (state job) = v)
       /\ (forall v, ps_lastError given = Some v -> lastError (state job) = v)
       /\ (forall v, ps_lastDurationMs given = Some v -> lastDurationMs (state job) = v).
Proof.
  intros eval given input. split; [reflexivity|].
  apply (addJob_state_overrides eval "u" input 0 [] given (Some 60000)); reflexivity.
Defined.

(** * Further properties of the local operations *)

(** ** Status and listing *)

Lemma foldl_earlierWake_None jobs acc :
  foldl earlierWake acc jobs = None <->
  acc = None /\ forall j, j ∈ jobs -> nextRunAtMs (state j) = None.
Proof.
  revert acc. induction jobs as [|j rest IH]; intros acc; cbn.
  - split; [intros ->; split; [done|]; by intros j Hj%elem_of_nil|by intros [-> _]].
  - rewrite IH. unfold earlierWake. split.
    + intros [Hacc Hrest].
      destruct (nextRunAtMs (state j)) as [next|] eqn:Hnext.
      * by destruct acc.
      * split; [done|]. intros x [->|Hx]%elem_of_cons; auto.
    + intros [-> Hall]. rewrite (Hall j) by apply list_elem_of_here.
      split; [done|]. intros x Hx. apply Hall. by apply list_elem_of_further.
Qed.

Lemma foldl_earlierWake_Some jobs acc t :
  foldl earlierWake acc jobs = Some t ->
  (acc = Some t \/ exists j, j ∈ jobs /\ nextRunAtMs (state j) = Some t)
  /\ (forall a, acc = Some a -> t <= a)
  /\ (forall j t', j ∈ jobs -> nextRunAtMs (state j) = Some t' -> t <= t').
Proof.
  revert acc. induction jobs as [|j rest IH]; intros acc; cbn.
  - intros ->. split; [by left|]. split; [intros a [= ->]; lia|].
    by intros j t' Hj%elem_of_nil.
  - intros Hfold. apply IH in Hfold as (Hin & Hacc & Hrest). unfold earlierWake in *.
    destruct (nextRunAtMs (state j)) as [next|] eqn:Hnext.
    + assert (t <= next) as Hle.
      { destruct acc as [m|]; [specialize (Hacc _ eq_refl); lia|].
        specialize (Hacc _ eq_refl); lia. }
      split; [|split].
      * destruct Hin as [Hin|(x & Hx & Hxt)].
        -- destruct acc as [m|]; injection Hin as Hin.
           ++ destruct (Z.min_spec m next) as [[_ Hm]|[_ Hm]]; rewrite Hm in Hin.
              ** left. by subst.
              ** right. exists j. split; [apply list_elem_of_here|]. by subst.
           ++ right. exists j. split; [apply list_elem_of_here|]. by subst.
        -- right. exists x. split; [by apply list_elem_of_further|done].
      * intros a ->. specialize (Hacc _ eq_refl). lia.
      * intros x t' [->|Hx]%elem_of_cons Hxt; [|eauto]. rewrite Hnext in Hxt.
        injection Hxt as <-. done.
    + split; [|split; [done|]].
      * destruct Hin as [Hin|(x & Hx & Hxt)]; [by left|].
        right. exists x. split; [by apply list_elem_of_further|done].
      * intros x t' [->|Hx]%elem_of_cons Hxt; [congruence|eauto].
Qed.

(** The minimum [getStatus] folds over the enabled jobs. *)
Lemma earliest_wake jobs :
  match foldl earlierWake None (filter (fun j => isEnabled j) jobs) with
  | None => forall j, j ∈ jobs -> enabled j = Some true -> nextRunAtMs (state j) = None
  | Some t =>
      (exists j, j ∈ jobs /\ enabled j = Some true /\ nextRunAtMs (state j) = Some t)
      /\ forall j t', j ∈ jobs -> enabled j = Some true ->
                      nextRunAtMs (state j) = Some t' -> t <= t'
  end.
Proof.
  destruct (foldl earlierWake None (filter (fun j => isEnabled j) jobs)) as [t|] eqn:Hfold.
  - apply foldl_earlierWake_Some in Hfold as (Hin & _ & Hmin). split.
    + destruct Hin as [[=]|(j & Hj & Hjt)].
      apply list_elem_of_filter in Hj as [Hen Hj].
      exists j. split; [done|]. split; [by apply isEnabled_true, Is_true_true|done].
    + intros j t' Hj Hen Hjt. apply (Hmin j); [|done].
      apply list_elem_of_filter. split; [by apply Is_true_true, isEnabled_true|done].
  - apply foldl_earlierWake_None in Hfold as [_ Hall].
    intros j Hj Hen. apply Hall. apply list_elem_of_filter.
    split; [by apply Is_true_true, isEnabled_true|done].
Qed.

(** X1: [getStatus] counts every stored job, enabled or not, and reports
    as [nextWakeAtMs] the least [nextRunAtMs] among the enabled jobs that
    have one; it reports [null] exactly when no enabled job has one.  It
    saves nothing. *)
Theorem getStatus_next_wake (path : string) (jobs : Jobs) :
  exists st,
    getStatus path jobs = (Ok st, None)
    /\ status_jobs st = length jobs
    /\ status_storePath st = path
    /\ match nextWakeAtMs st with
       | None =>
           forall j, j ∈ jobs -> enabled j = Some true -> nextRunAtMs (state j) = None
       | Some t =>
           (exists j, j ∈ jobs /\ enabled j = Some true /\ nextRunAtMs (state j) = Some t)
           /\ forall j t', j ∈ jobs -> enabled j = Some true ->
                           nextRunAtMs (state j) = Some t' -> t <= t'
       end.
Proof.
  eexists. split; [reflexivity|]. split; [reflexivity|]. split; [reflexivity|].
  cbn [nextWakeAtMs]. apply earliest_wake.
Qed.

Lemma isDue_inv now j :
  isDue now j = true ->
  enabled j = Some true /\ exists next, nextRunAtMs (state j) = Some next /\ next <= now.
Proof.
  unfold isDue. destruct (isEnabled j) eqn:Hen; cbn; [|done].
  apply isEnabled_true in Hen.
  destruct (truthy (runningAtMs (state j))); [done|].
  destruct (nextRunAtMs (state j)) as [next|]; [|done].
  intros Hle%Z.leb_le. eauto.
Qed.

(** X2: a caller that sleeps until [nextWakeAtMs] misses no due job: when
    [getStatus] reports no wake time, or one after [now], [getDueJobs] at
    [now] returns the empty list. *)
Theorem nothing_due_before_next_wake (path : string) (jobs : Jobs) (now : Z) (st : CronStatus) :
  result (getStatus path) jobs = Ok st ->
  (forall t, nextWakeAtMs st = Some t -> now < t) ->
  getDueJobs now jobs = (Ok [], None).
Proof.
  intros Hst Hwake. pose proof (earliest_wake jobs) as Hmin.
  unfold result, getStatus in Hst. cbn in Hst. injection Hst as <-.
  cbn [nextWakeAtMs] in Hwake.
  unfold getDueJobs. f_equal. f_equal.
  destruct (filter (fun j => isDue now j) jobs) as [|j rest] eqn:Hdue; [done|].
  exfalso.
  assert (j ∈ filter (fun j => isDue now j) jobs) as Hj by (rewrite Hdue; apply list_elem_of_here).
  apply list_elem_of_filter in Hj as [Hd Hj]. apply Is_true_true in Hd.
  apply isDue_inv in Hd as (Hen & next & Hnext & Hle).
  destruct (foldl earlierWake None (filter (fun j => isEnabled j) jobs)) as [t|].
  - destruct Hmin as [_ Hmin]. specialize (Hmin j next Hj Hen Hnext).
    specialize (Hwake t eq_refl). lia.
  - rewrite (Hmin j Hj Hen) in Hnext. discriminate.
Qed.

Lemma nothing_due_before_next_wake_witness :
  getDueJobs 59999 [plainJob "a" (Every 60000 0) (Some 60000);
                    plainJob "b" (At 90000) (Some 90000)] = (Ok [], None).
Proof.
  eapply (nothing_due_before_next_wake "jobs.json"
            [plainJob "a" (Every 60000 0) (Some 60000);
             plainJob "b" (At 90000) (Some 90000)] 59999).
  - reflexivity.
  - cbn. intros t [= <-]. lia.
Defined.

Lemma insertByNextRun_perm j sorted : insertByNextRun j sorted ≡ₚ j :: sorted.
Proof.
  induction sorted as [|k rest IH]; cbn; [done|].
  destruct (sortKey j <=? sortKey k); [done|]. rewrite IH. apply Permutation_swap.
Qed.

Lemma sortByNextRun_perm jobs : sortByNextRun jobs ≡ₚ jobs.
Proof.
  induction jobs as [|j rest IH]; cbn; [done|].
  rewrite insertByNextRun_perm. by f_equiv.
Qed.

Lemma insertByNextRun_sorted j sorted :
  StronglySorted byNextRun sorted -> StronglySorted byNextRun (insertByNextRun j sorted).
Proof.
  induction 1 as [|k rest Hrest IH Hk]; cbn.
  - repeat constructor.
  - destruct (Z.leb_spec (sortKey j) (sortKey k)) as [Hle|Hlt].
    + constructor; [by constructor|]. constructor; [done|].
      eapply Forall_impl; [exact Hk|]. unfold byNextRun. intros x Hx. lia.
    + constructor; [done|]. rewrite insertByNextRun_perm.
      constructor; [unfold byNextRun; lia|done].
Qed.

Lemma sortByNextRun_sorted jobs : StronglySorted byNextRun (sortByNextRun jobs).
Proof.
  induction jobs as [|j rest IH]; cbn; [constructor|].
  by apply insertByNextRun_sorted.
Qed.

Lemma insertByNextRun_stable key j sorted :
  filter (fun x => sortKey x = key) (insertByNextRun j sorted)
  = filter (fun x => sortKey x = key) (j :: sorted).
Proof.
  induction sorted as [|k rest IH]; cbn; [done|].
  destruct (Z.leb_spec (sortKey j) (sortKey k)) as [Hle|Hlt]; [done|].
  rewrite (filter_cons _ k), IH, !filter_cons.
  repeat case_decide; try done. lia.
Qed.

Lemma sortByNextRun_stable key jobs :
  filter (fun x => sortKey x = key) (sortByNextRun jobs)
  = filter (fun x => sortKey x = key) jobs.
Proof.
  induction jobs as [|j rest IH]; [done|].
  change (sortByNextRun (j :: rest)) with (insertByNextRun j (sortByNextRun rest)).
  rewrite insertByNextRun_stable, !filter_cons, IH. done.
Qed.

(** X3: [listJobs] returns the stored jobs, or the enabled ones when
    disabled jobs are not asked for, each as often as it is stored, in
    ascending order of [nextRunAtMs ?? 0]; jobs with the same key keep
    their stored order; nothing is saved. *)
Theorem listJobs_sorted (includeDisabled : bool) (jobs : Jobs) :
  let chosen := if includeDisabled then jobs else filter (fun j => isEnabled j) jobs in
  exists shown,
    listJobs includeDisabled jobs = (Ok shown, None)
    /\ shown ≡ₚ chosen
    /\ StronglySorted byNextRun shown
    /\ forall key,
         filter (fun j => sortKey j = key) shown = filter (fun j => sortKey j = key) chosen.
Proof.
  intros chosen. exists (sortByNextRun chosen). split; [reflexivity|].
  split; [apply sortByNextRun_perm|]. split; [apply sortByNextRun_sorted|].
  intros key. apply sortByNextRun_stable.
Qed.

(** ** Lookups across operations *)

Lemma lookupJob_cons jobId j rest :
  lookupJob jobId (j :: rest) = if decide (id j = jobId) then Some j else lookupJob jobId rest.
Proof.
  unfold lookupJob, findIndex. cbn. case_decide; [done|].
  by destruct (list_find (fun j => id j = jobId) rest) as [[i x]|].
Qed.

Lemma getJob_lookupJob jobId jobs :
  getJob jobId jobs
  = (match lookupJob jobId jobs with Some j => Ok j | None => notFound jobId end, None).
Proof.
  unfold getJob, lookupJob. by destruct (findIndex jobId jobs) as [[i j]|].
Qed.

Lemma lookupJob_None jobId jobs :
  lookupJob jobId jobs = None <-> forall j, j ∈ jobs -> id j <> jobId.
Proof.
  induction jobs as [|j rest IH]; [split; [by intros _ j Hj%elem_of_nil|done]|].
  rewrite lookupJob_cons. case_decide as Hid.
  - split; [done|]. intros Hall. destruct (Hall j); [apply list_elem_of_here|done].
  - rewrite IH. split.
    + intros Hall x [->|Hx]%elem_of_cons; auto.
    + intros Hall x Hx. apply Hall. by apply list_elem_of_further.
Qed.

Lemma lookupJob_Some jobId jobs j :
  lookupJob jobId jobs = Some j -> j ∈ jobs /\ id j = jobId.
Proof.
  unfold lookupJob. destruct (findIndex jobId jobs) as [[i x]|] eqn:Hfind; [|done].
  intros [= <-]. apply findIndex_Some in Hfind as (Hi & Hid & _).
  split; [by eapply list_elem_of_lookup_2|done].
Qed.

(** Replacing a job by one of the same id changes no lookup under another
    id. *)
Lemma lookupJob_insert_other other jobs i found job :
  jobs !! i = Some found -> id job = id found -> other <> id found ->
  lookupJob other (<[i := job]> jobs) = lookupJob other jobs.
Proof.
  revert i. induction jobs as [|j rest IH]; intros i Hi Hid Hne; [done|].
  destruct i as [|i]; cbn in Hi.
  - injection Hi as ->. change (<[0%nat := job]> (found :: rest)) with (job :: rest).
    rewrite !lookupJob_cons. by repeat case_decide; try congruence.
  - change (<[S i := job]> (j :: rest)) with (j :: <[i := job]> rest).
    rewrite !lookupJob_cons. case_decide; [done|]. by eapply IH.
Qed.

Lemma lookupJob_withoutId_other other jobId jobs :
  other <> jobId -> lookupJob other (withoutId jobId jobs) = lookupJob other jobs.
Proof.
  intros Hne. unfold withoutId. induction jobs as [|j rest IH]; [done|].
  rewrite filter_cons, (lookupJob_cons other j rest). case_decide as Hkeep.
  - rewrite lookupJob_cons. by case_decide.
  - by case_decide; [congruence|].
Qed.

Lemma lookupJob_withoutId jobId jobs : lookupJob jobId (withoutId jobId jobs) = None.
Proof. unfold lookupJob. by rewrite findIndex_withoutId. Qed.

Lemma lookupJob_app jobId jobs job :
  lookupJob jobId (jobs ++ [job])
  = match lookupJob jobId jobs with
    | Some j => Some j
    | None => if decide (id job = jobId) then Some job else None
    end.
Proof.
  induction jobs as [|j rest IH]; cbn [app].
  - rewrite lookupJob_cons. reflexivity.
  - rewrite !lookupJob_cons. destruct (decide (id j = jobId)); [done|exact IH].
Qed.

Lemma ids_insert (jobs : Jobs) i found job :
  jobs !! i = Some found -> id job = id found -> id <$> <[i := job]> jobs = id <$> jobs.
Proof.
  intros Hi Hid. rewrite list_fmap_insert, Hid. apply list_insert_id.
  by rewrite list_lookup_fmap, Hi.
Qed.

Lemma ids_withoutId jobId jobs :
  NoDup (id <$> jobs) -> NoDup (id <$> withoutId jobId jobs).
Proof.
  unfold withoutId. induction jobs as [|j rest IH]; [done|].
  rewrite fmap_cons, NoDup_cons, filter_cons. intros [Hj Hrest].
  case_decide; [|auto]. rewrite fmap_cons, NoDup_cons. split; [|auto].
  intros (x & Hx & Hin)%list_elem_of_fmap. apply list_elem_of_filter in Hin as [_ Hin].
  apply Hj, list_elem_of_fmap. eauto.
Qed.

(** With unique ids, the job written back is the only one under its id. *)
Lemma unique_after_insert (jobs : Jobs) i found job x :
  NoDup (id <$> jobs) -> jobs !! i = Some found -> id job = id found ->
  x ∈ <[i := job]> jobs -> id x = id found -> x = job.
Proof.
  intros Hnd Hi Hid [k Hk]%list_elem_of_lookup Hx.
  destruct (decide (i = k)) as [->|Hik].
  - rewrite list_lookup_insert_eq in Hk by (by eapply lookup_lt_Some). congruence.
  - rewrite list_lookup_insert_ne in Hk by done. destruct Hik.
    eapply NoDup_lookup; [exact Hnd| |].
    + by rewrite list_lookup_fmap, Hi.
    + rewrite list_lookup_fmap, Hk. cbn. congruence.
Qed.

Lemma withoutId_absent jobId jobs :
  (forall j, j ∈ jobs -> id j <> jobId) -> withoutId jobId jobs = jobs.
Proof.
  intros Hnone. unfold withoutId. induction jobs as [|j rest IH]; [done|].
  rewrite filter_cons. destruct (decide (id j <> jobId)) as [Hj|Hj].
  - f_equal. apply IH. intros x Hx. apply Hnone. by apply list_elem_of_further.
  - exfalso. apply Hj, Hnone, list_elem_of_here.
Qed.

Lemma removeJob_absent jobId jobs :
  (forall j, j ∈ jobs -> id j <> jobId) -> removeJob jobId jobs = (Ok false, None).
Proof.
  intros Hnone. unfold removeJob. rewrite withoutId_absent by done.
  cbn. case_bool_decide; [lia|done].
Qed.

(** ** Failures *)

(** X4: [addJob], [updateJob], [markJobRunning] and [markJobCompleted],
    when they return a failure (an unknown id, an exception of the
    evaluator), have handed nothing to [saveCronStore]: the document is as
    before. *)
Theorem failure_saves_nothing (eval : CronSchedule -> Z -> Outcome (option Z)) :
  (forall uuid input now, savesNothingOnFailure (addJob eval uuid input now))
  /\ (forall jobId patch now, savesNothingOnFailure (updateJob eval jobId patch now))
  /\ (forall jobId startedAt now,
        savesNothingOnFailure (markJobRunning eval jobId startedAt now))
  /\ (forall jobId res now, savesNothingOnFailure (markJobCompleted eval jobId res now)).
Proof.
  assert (forall jobId patch now, savesNothingOnFailure (updateJob eval jobId patch now))
    as Hupdate.
  { intros jobId patch now jobs e. unfold result.
    pose proof (updateJob_inv eval jobId patch now jobs) as Hinv.
    destruct (findIndex jobId jobs) as [[i found]|]; [|by rewrite Hinv].
    by destruct Hinv as [[e' ->]|[next ->]]. }
  split; [|split; [done|split]].
  - intros uuid input now jobs e. unfold result, addJob.
    by destruct (if notFalse (input_enabled input) then eval (input_schedule input) now
                 else Returned None).
  - intros jobId startedAt now. apply Hupdate.
  - intros jobId res now jobs e. unfold result.
    pose proof (markJobCompleted_cases eval jobId res now jobs) as Hc.
    destruct (findIndex jobId jobs) as [[i found]|]; [|by rewrite Hc].
    cbn zeta in Hc.
    destruct (isOneShot found && isOk (status res)).
    + by destruct (truthyBool (deleteAfterRun found)); rewrite Hc.
    + destruct (isEnabled found); [|by rewrite Hc].
      by destruct (eval (schedule found) now); rewrite Hc.
Qed.

(** An evaluator that fails on every cron schedule, and an update that
    fails with it: the document stays as it was. *)
Lemma failure_saves_nothing_witness :
  let eval := specNextRunAtMs noCron in
  let jobs := [plainJob "c" (Cron "* * *" "UTC") None] in
  result (updateJob eval "c" (enabledPatch true) 1000) jobs = Failure "ScheduleError"
  /\ (updateJob eval "c" (enabledPatch true) 1000 jobs).2 = None.
Proof.
  intros eval jobs. split; [reflexivity|].
  apply (proj1 (proj2 (failure_saves_nothing eval)) "c" (enabledPatch true) 1000 jobs
           "ScheduleError").
  reflexivity.
Defined.

(** X5: under an id that no stored job has, [getJob], [updateJob],
    [markJobRunning] and [markJobCompleted] fail with the message
    "Job not found: <id>", [removeJob] reports that nothing was removed, and
    none of them saves. *)
Theorem unknown_id_not_found
    (eval : CronSchedule -> Z -> Outcome (option Z)) (jobId : string) (jobs : Jobs) :
  (forall j, j ∈ jobs -> id j <> jobId) ->
  getJob jobId jobs = (Failure ("Job not found: " +:+ jobId), None)
  /\ (forall patch now,
        updateJob eval jobId patch now jobs = (Failure ("Job not found: " +:+ jobId), None))
  /\ (forall startedAt now,
        markJobRunning eval jobId startedAt now jobs
        = (Failure ("Job not found: " +:+ jobId), None))
  /\ (forall res now,
        markJobCompleted eval jobId res now jobs
        = (Failure ("Job not found: " +:+ jobId), None))
  /\ removeJob jobId jobs = (Ok false, None).
Proof.
  intros Hnone.
  assert (findIndex jobId jobs = None) as Hfind.
  { unfold findIndex. apply list_find_None, Forall_forall. exact Hnone. }
  split; [|split; [|split; [|split]]].
  - unfold getJob. by rewrite Hfind.
  - intros patch now. unfold updateJob. by rewrite Hfind.
  - intros startedAt now. unfold markJobRunning, updateJob. by rewrite Hfind.
  - intros res now. unfold markJobCompleted. by rewrite Hfind.
  - by apply removeJob_absent.
Qed.

Lemma unknown_id_not_found_witness :
  removeJob "nobody" scenarioA = (Ok false, None)
  /\ getJob "nobody" scenarioA = (Failure "Job not found: nobody", None).
Proof.
  destruct (unknown_id_not_found (specNextRunAtMs noCron) "nobody" scenarioA)
    as (Hget & _ & _ & _ & Hremove).
  - intros j [->|Hj%elem_of_nil]%elem_of_cons; [discriminate|done].
  - split; [exact Hremove|exact Hget].
Defined.

(** ** What an update touches *)

(** The four ways [markJobCompleted] ends on a job it found, read off
    [markJobCompleted_cases] once its hypothesis [Hc] names the job. *)
Ltac split_completion Hc :=
  cbn zeta in Hc;
  match type of Hc with
  | context [isOneShot ?f && isOk ?s] =>
      destruct (isOneShot f && isOk s) eqn:?;
      [ destruct (truthyBool (deleteAfterRun f)) eqn:?
      | destruct (isEnabled f) eqn:?;
        [ match type of Hc with
          | context [match ?e with Returned _ => _ | Threw _ => _ end] => destruct e eqn:?
          end
        | ] ]
  end.

Lemma updateJob_Ok eval jobId patch now jobs job :
  result (updateJob eval jobId patch now) jobs = Ok job ->
  exists i found next,
    findIndex jobId jobs = Some (i, found)
    /\ job = assignNextRun next (applyPatch patch now found)
    /\ (updateJob eval jobId patch now jobs).2 = Some (<[i := job]> jobs).
Proof.
  unfold result. pose proof (updateJob_inv eval jobId patch now jobs) as Hinv.
  destruct (findIndex jobId jobs) as [[i found]|]; [|by rewrite Hinv].
  destruct Hinv as [[e ->]|[next ->]]; [done|]. cbn -[assignNextRun applyPatch].
  intros [= <-]. by exists i, found, next.
Qed.

(** X6: a successful [updateJob] rewrites one slot of the collection, the
    first job under the id.  The job keeps its [id] and [createdAtMs] and
    gets [updatedAtMs = now]; it is what [getJob] finds afterwards; the
    number of jobs, their ids and their order stay as they were, and so does
    every lookup under another id. *)
Theorem updateJob_frame
    (eval : CronSchedule -> Z -> Outcome (option Z))
    (jobId : string) (patch : CronJobPatch) (now : Z) (jobs : Jobs) (job : CronJob) :
  result (updateJob eval jobId patch now) jobs = Ok job ->
  let after := stored (updateJob eval jobId patch now) jobs in
  (exists found,
      result (getJob jobId) jobs = Ok found
      /\ id job = jobId /\ createdAtMs job = createdAtMs found)
  /\ updatedAtMs job = now
  /\ result (getJob jobId) after = Ok job
  /\ id <$> after = id <$> jobs
  /\ forall other, other <> jobId -> getJob other after = getJob other jobs.
Proof.
  intros (i & found & next & Hfind & -> & Hsaved)%updateJob_Ok after.
  subst after. unfold stored. rewrite Hsaved. cbn [default from_option Datatypes.id].
  pose proof Hfind as (Hi & Hid & _)%findIndex_Some.
  split; [|split; [done|split; [|split]]].
  - exists found. split; [apply getJob_inv; eauto|done].
  - apply getJob_inv. exists i. by eapply findIndex_insert.
  - by apply (ids_insert jobs i found).
  - intros other Hne. rewrite !getJob_lookupJob.
    rewrite (lookupJob_insert_other other jobs i found); [done..|congruence].
Qed.

Lemma updateJob_frame_witness :
  let eval := specNextRunAtMs noCron in
  let jobs := [plainJob "a" (Every 60000 0) (Some 60000); turnJob] in
  id <$> stored (updateJob eval "T" modelPatch 1000) jobs = ["a"; "T"]
  /\ getJob "a" (stored (updateJob eval "T" modelPatch 1000) jobs) = getJob "a" jobs.
Proof.
  intros eval jobs.
  edestruct (updateJob_frame eval "T" modelPatch 1000 jobs) as (_ & _ & _ & Hids & Hother);
    [reflexivity|].
  split; [exact Hids|]. apply Hother. discriminate.
Defined.

Lemma nullish_is_Some {A} (a b : option A) : is_Some b -> is_Some (nullish a b).
Proof. destruct a; cbn; eauto. Qed.

Lemma assignDefined_is_Some {A} (p : option (option A)) (old : option A) :
  is_Some old -> is_Some (assignDefined p old).
Proof. destruct p as [[v|]|]; cbn; eauto. Qed.

(** X7: [updateJob] cannot unset anything but [nextRunAtMs].  An optional
    field of the job ([description], [agentId], [deleteAfterRun],
    [isolation]) and a field of its state ([runningAtMs], [lastRunAtMs],
    [lastStatus], [lastError], [lastDurationMs]) that held a value before a
    successful update hold one after it, whatever the patch. *)
Theorem updateJob_never_unsets
    (eval : CronSchedule -> Z -> Outcome (option Z))
    (jobId : string) (patch : CronJobPatch) (now : Z) (jobs : Jobs)
    (found job : CronJob) :
  result (getJob jobId) jobs = Ok found ->
  result (updateJob eval jobId patch now) jobs = Ok job ->
  (is_Some (description found) -> is_Some (description job))
  /\ (is_Some (agentId found) -> is_Some (agentId job))
  /\ (is_Some (deleteAfterRun found) -> is_Some (deleteAfterRun job))
  /\ (is_Some (isolation found) -> is_Some (isolation job))
  /\ (is_Some (runningAtMs (state found)) -> is_Some (runningAtMs (state job)))
  /\ (is_Some (lastRunAtMs (state found)) -> is_Some (lastRunAtMs (state job)))
  /\ (is_Some (lastStatus (state found)) -> is_Some (lastStatus (state job)))
  /\ (is_Some (lastError (state found)) -> is_Some (lastError (state job)))
  /\ (is_Some (lastDurationMs (state found)) -> is_Some (lastDurationMs (state job))).
Proof.
  intros [i Hfind]%getJob_inv (i' & found' & next & Hfind' & -> & _)%updateJob_Ok.
  rewrite Hfind in Hfind'. injection Hfind' as <- <-. cbn.
  repeat split; try apply nullish_is_Some;
    destruct (patch_state patch) as [p|]; cbn; try done;
    apply assignDefined_is_Some.
Qed.

Lemma updateJob_never_unsets_witness :
  let eval := specNextRunAtMs noCron in
  let cleared := mkPartialState None (Some None) None None None None in
  let patch := mkPatch None None None None None None None None None None (Some cleared) in
  exists job,
    result (updateJob eval "X" patch 70000) scenarioA = Ok job
    /\ is_Some (runningAtMs (state job)).
Proof.
  intros eval cleared patch. eexists. split; [reflexivity|].
  edestruct (updateJob_never_unsets eval "X" patch 70000 scenarioA)
    as (_ & _ & _ & _ & Hrun & _); [reflexivity|reflexivity|].
  apply Hrun. by eexists.
Defined.

(** X8: [markJobRunning] succeeds on every stored job, whether or not it
    is due, enabled or already running, and never consults the evaluator.
    It sets [runningAtMs] to its own clock reading and [updatedAtMs] to the
    one taken in [updateJob]; a disabled job also loses its [nextRunAtMs];
    every other field stays. *)
Theorem markJobRunning_effect
    (eval : CronSchedule -> Z -> Outcome (option Z))
    (jobId : string) (startedAt now : Z) (jobs : Jobs) (found : CronJob) :
  result (getJob jobId) jobs = Ok found ->
  let job :=
    {| id := id found; name := name found; description := description found;
       enabled := enabled found; schedule := schedule found;
       payload := payload found; deleteAfterRun := deleteAfterRun found;
       sessionTarget := sessionTarget found; wakeMode := wakeMode found;
       agentId := agentId found; isolation := isolation found;
       createdAtMs := createdAtMs found; updatedAtMs := now;
       state :=
         {| nextRunAtMs := if isEnabled found then nextRunAtMs (state found) else None;
            runningAtMs := Some startedAt;
            lastRunAtMs := lastRunAtMs (state found);
            lastStatus := lastStatus (state found);
            lastError := lastError (state found);
            lastDurationMs := lastDurationMs (state found) |} |} in
  result (markJobRunning eval jobId startedAt now) jobs = Ok job
  /\ result (getJob jobId) (stored (markJobRunning eval jobId startedAt now) jobs) = Ok job.
Proof.
  intros [i Hfind]%getJob_inv job. unfold markJobRunning.
  set (patch := mkPatch _ _ _ _ _ _ _ _ _ _ _).
  pose proof (updateJob_cases eval jobId patch now jobs) as Hc.
  rewrite Hfind in Hc. cbn -[assignNextRun applyPatch] in Hc.
  rewrite andb_false_r in Hc.
  assert (forall j, id j = jobId ->
            result (getJob jobId) (<[i := j]> jobs) = Ok j) as Hget.
  { intros j Hj. apply getJob_inv. exists i. by eapply findIndex_insert. }
  pose proof Hfind as (_ & Hid & _)%findIndex_Some.
  unfold stored, result. subst job.
  change (isEnabled (applyPatch patch now found)) with (isEnabled found) in Hc.
  destruct (isEnabled found) eqn:Hen; cbn [negb] in Hc; rewrite Hc;
    cbn [fst snd from_option Datatypes.id].
  - assert (applyPatch patch now found
            = {| id := id found; name := name found; description := description found;
                 enabled := enabled found; schedule := schedule found;
                 payload := payload found; deleteAfterRun := deleteAfterRun found;
                 sessionTarget := sessionTarget found; wakeMode := wakeMode found;
                 agentId := agentId found; isolation := isolation found;
                 createdAtMs := createdAtMs found; updatedAtMs := now;
                 state :=
                   {| nextRunAtMs := nextRunAtMs (state found);
                      runningAtMs := Some startedAt;
                      lastRunAtMs := lastRunAtMs (state found);
                      lastStatus := lastStatus (state found);
                      lastError := lastError (state found);
                      lastDurationMs := lastDurationMs (state found) |} |}) as ->.
    { unfold applyPatch. cbn.
      by destruct (description found), (deleteAfterRun found), (agentId found),
        (isolation found). }
    split; [done|]. by apply Hget.
  - assert (assignNextRun None (applyPatch patch now found)
            = {| id := id found; name := name found; description := description found;
                 enabled := enabled found; schedule := schedule found;
                 payload := payload found; deleteAfterRun := deleteAfterRun found;
                 sessionTarget := sessionTarget found; wakeMode := wakeMode found;
                 agentId := agentId found; isolation := isolation found;
                 createdAtMs := createdAtMs found; updatedAtMs := now;
                 state :=
                   {| nextRunAtMs := None;
                      runningAtMs := Some startedAt;
                      lastRunAtMs := lastRunAtMs (state found);
                      lastStatus := lastStatus (state found);
                      lastError := lastError (state found);
                      lastDurationMs := lastDurationMs (state found) |} |}) as ->.
    { unfold assignNextRun, applyPatch. cbn.
      by destruct (description found), (deleteAfterRun found), (agentId found),
        (isolation found). }
    split; [done|]. by apply Hget.
Qed.

Lemma markJobRunning_effect_witness :
  let eval := specNextRunAtMs noCron in
  exists job,
    result (markJobRunning eval "X" 61000 61001) scenarioA = Ok job
    /\ runningAtMs (state job) = Some 61000
    /\ nextRunAtMs (state job) = Some 60000
    /\ updatedAtMs job = 61001.
Proof.
  intros eval.
  edestruct (markJobRunning_effect eval "X" 61000 61001 scenarioA) as [Hres _];
    [reflexivity|].
  eexists. split; [exact Hres|]. repeat split.
Defined.

(** ** Completion, in every branch *)

(** X9: whenever [markJobCompleted] succeeds, in each of its four
    branches, the job it returns is the stored job with the run recorded:
    [runningAtMs] unset, [lastRunAtMs] and [updatedAtMs] the clock reading,
    [lastStatus], [lastError] and [lastDurationMs] those of the result (an
    earlier [lastError] is dropped when the result carries none); the id,
    the schedule, the payload and [createdAtMs] are untouched. *)
Theorem markJobCompleted_records_run
    (eval : CronSchedule -> Z -> Outcome (option Z))
    (jobId : string) (res : RunResult) (now : Z) (jobs : Jobs) (job : CronJob) :
  result (markJobCompleted eval jobId res now) jobs = Ok job ->
  (exists found,
      result (getJob jobId) jobs = Ok found
      /\ schedule job = schedule found /\ payload job = payload found
      /\ createdAtMs job = createdAtMs found /\ name job = name found)
  /\ id job = jobId
  /\ updatedAtMs job = now
  /\ runningAtMs (state job) = None
  /\ lastRunAtMs (state job) = Some now
  /\ lastStatus (state job) = Some (status res)
  /\ lastError (state job) = error res
  /\ lastDurationMs (state job) = Some (durationMs res).
Proof.
  unfold result. pose proof (markJobCompleted_cases eval jobId res now jobs) as Hc.
  destruct (findIndex jobId jobs) as [[i found]|] eqn:Hfind; [|by rewrite Hc].
  pose proof Hfind as (_ & Hid & _)%findIndex_Some.
  assert (result (getJob jobId) jobs = Ok found) as Hget by (apply getJob_inv; eauto).
  split_completion Hc; rewrite Hc; cbn -[recordRun]; intros [= <-];
    (split; [exists found; by repeat split|by repeat split]).
Qed.

Lemma markJobCompleted_records_run_witness :
  let eval := specNextRunAtMs noCron in
  let failed := plainJob "f" (Every 60000 0) (Some 60000) in
  let jobs := [setState (mkState (Some 60000) (Some 60000) None None (Some "old") None) failed] in
  exists job,
    result (markJobCompleted eval "f" (mkResult StatusOk None 20) 60020) jobs = Ok job
    /\ lastError (state job) = None
    /\ runningAtMs (state job) = None.
Proof.
  intros eval failed jobs. eexists. split; [reflexivity|].
  edestruct (markJobCompleted_records_run eval "f" (mkResult StatusOk None 20) 60020 jobs)
    as (_ & _ & _ & Hrun & _ & _ & Herr & _); [reflexivity|].
  split; [exact Herr|exact Hrun].
Defined.

(** ** Unique ids *)

(** X10: ids stay unique.  If no two stored jobs share an id, none do
    after any mutating call, provided a creation draws an id that no stored
    job has. *)
Theorem unique_ids_preserved
    (eval : CronSchedule -> Z -> Outcome (option Z)) (c : Call) (jobs : Jobs) :
  NoDup (id <$> jobs) ->
  createsFreshId c jobs ->
  NoDup (id <$> perform eval c jobs).
Proof.
  intros Hnd Hfresh.
  assert (forall jobId patch now,
            NoDup (id <$> stored (updateJob eval jobId patch now) jobs)) as Hupdate.
  { intros jobId patch now. unfold stored.
    pose proof (updateJob_inv eval jobId patch now jobs) as Hinv.
    destruct (findIndex jobId jobs) as [[i found]|] eqn:Hfind; [|by rewrite Hinv].
    apply findIndex_Some in Hfind as (Hi & _ & _).
    destruct Hinv as [[e ->]|[next ->]]; [done|]. cbn -[assignNextRun applyPatch].
    by rewrite (ids_insert jobs i found). }
  destruct c as [uuid input now|jobId patch now|jobId|jobId startedAt now|jobId res now];
    cbn [perform createsFreshId] in *.
  - unfold stored, addJob.
    destruct (if notFalse (input_enabled input) then eval (input_schedule input) now
              else Returned None); cbn; [|done].
    rewrite fmap_app. apply NoDup_app. split; [done|]. split; [|apply NoDup_singleton].
    intros x (j & -> & Hj)%list_elem_of_fmap Hx. cbn in Hx.
    apply list_elem_of_singleton in Hx. by apply (Hfresh j).
  - apply Hupdate.
  - unfold stored, removeJob. cbn. case_bool_decide; cbn; [|done].
    by apply ids_withoutId.
  - apply Hupdate.
  - unfold stored.
    pose proof (markJobCompleted_cases eval jobId res now jobs) as Hc.
    destruct (findIndex jobId jobs) as [[i found]|] eqn:Hfind; [|by rewrite Hc].
    apply findIndex_Some in Hfind as (Hi & _ & _).
    split_completion Hc; rewrite Hc; cbn -[recordRun assignNextRun disableJob];
      try done; try (by apply ids_withoutId); by rewrite (ids_insert jobs i found).
Qed.

Lemma unique_ids_preserved_witness :
  NoDup (id <$> perform (specNextRunAtMs noCron)
                  (CallAdd "Z" (plainInput (At 5000) true None) 100) scenarioA).
Proof.
  apply (unique_ids_preserved (specNextRunAtMs noCron)
           (CallAdd "Z" (plainInput (At 5000) true None) 100) scenarioA).
  - apply NoDup_singleton.
  - cbn. intros j [->|Hj%elem_of_nil]%elem_of_cons; [discriminate|done].
Defined.

(** ** Adding and removing *)

(** X11: a successful [addJob] appends one job and leaves the stored ones
    in place.  The new job is what [getJob] finds under its id when that id
    was not in use; had a stored job the same id, that job is still the one
    found.  Lookups under other ids are unchanged. *)
Theorem addJob_then_getJob
    (eval : CronSchedule -> Z -> Outcome (option Z))
    (uuid : string) (input : CronJobCreate) (now : Z) (jobs : Jobs) (job : CronJob) :
  result (addJob eval uuid input now) jobs = Ok job ->
  let after := stored (addJob eval uuid input now) jobs in
  after = jobs ++ [job]
  /\ id job = uuid
  /\ ((forall j, j ∈ jobs -> id j <> uuid) -> getJob uuid after = (Ok job, None))
  /\ (forall old, result (getJob uuid) jobs = Ok old -> getJob uuid after = (Ok old, None))
  /\ forall other, other <> uuid -> getJob other after = getJob other jobs.
Proof.
  unfold result, stored, addJob.
  destruct (if notFalse (input_enabled input) then eval (input_schedule input) now
            else Returned None) as [computed|e]; cbn; [|done].
  intros [= <-]. split; [done|]. split; [done|].
  split; [|split].
  - intros Hfresh%lookupJob_None. rewrite getJob_lookupJob, lookupJob_app, Hfresh.
    cbn. by case_decide.
  - intros old. rewrite !getJob_lookupJob, lookupJob_app. cbn.
    destruct (lookupJob uuid jobs); [by intros [= ->]|discriminate].
  - intros other Hne. rewrite !getJob_lookupJob, lookupJob_app.
    destruct (lookupJob other jobs); [done|]. cbn. by case_decide.
Qed.

Lemma addJob_then_getJob_witness :
  let eval := specNextRunAtMs noCron in
  let input := plainInput (At 5000) true None in
  exists job,
    result (addJob eval "Z" input 100) scenarioA = Ok job
    /\ getJob "Z" (stored (addJob eval "Z" input 100) scenarioA) = (Ok job, None)
    /\ nextRunAtMs (state job) = Some 5000.
Proof.
  intros eval input. eexists. split; [reflexivity|].
  edestruct (addJob_then_getJob eval "Z" input 100 scenarioA) as (_ & _ & Hget & _);
    [reflexivity|].
  split; [|reflexivity]. apply Hget.
  intros j [->|Hj%elem_of_nil]%elem_of_cons; [discriminate|done].
Defined.

(** X12: [removeJob] deletes every job stored under the id and no other.
    It reports [removed = true] exactly when there was one, and saves only
    then; afterwards [getJob] fails under the id, lookups under other ids
    are unchanged, and a second [removeJob] reports [false] and saves
    nothing. *)
Theorem removeJob_effect (jobId : string) (jobs : Jobs) :
  let after := stored (removeJob jobId) jobs in
  (exists removed : bool,
      removeJob jobId jobs = (Ok removed, if removed then Some after else None)
      /\ (removed = true <-> exists j, j ∈ jobs /\ id j = jobId))
  /\ (forall j, j ∈ after <-> j ∈ jobs /\ id j <> jobId)
  /\ getJob jobId after = (notFound jobId, None)
  /\ (forall other, other <> jobId -> getJob other after = getJob other jobs)
  /\ removeJob jobId after = (Ok false, None).
Proof.
  intros after.
  assert ((length (withoutId jobId jobs) < length jobs)%nat
          <-> exists j, j ∈ jobs /\ id j = jobId) as Hlen.
  { split.
    - intros Hlt. destruct (lookupJob jobId jobs) as [j|] eqn:Hlook.
      + apply lookupJob_Some in Hlook. eauto.
      + exfalso. rewrite lookupJob_None in Hlook.
        rewrite withoutId_absent in Hlt by done. lia.
    - intros (j & Hj & Hid). unfold withoutId.
      eapply length_filter_lt; [exact Hj|]. by intros Hne. }
  assert (after = withoutId jobId jobs) as Hafter.
  { subst after. unfold stored, removeJob. cbn. case_bool_decide as Hdec; cbn; [done|].
    symmetry. apply withoutId_absent.
    intros j Hj Hid. apply Hdec, Hlen. eauto. }
  clearbody after. subst after.
  split; [|split; [|split; [|split]]].
  - exists (bool_decide (length (withoutId jobId jobs) < length jobs)%nat). split.
    + reflexivity.
    + rewrite bool_decide_eq_true. exact Hlen.
  - intros j. rewrite elem_of_withoutId. tauto.
  - rewrite getJob_lookupJob, lookupJob_withoutId. done.
  - intros other Hne. rewrite !getJob_lookupJob.
    by rewrite lookupJob_withoutId_other.
  - apply removeJob_absent.
    intros j Hj. by apply elem_of_withoutId in Hj as [Hne _].
Qed.

(** ** No job is due at the moment it is scheduled *)

Lemma isDue_later t j :
  (forall v, nextRunAtMs (state j) = Some v -> t < v) -> isDue t j = false.
Proof.
  intros Hlater. unfold isDue. destruct (negb (isEnabled j)); [done|].
  destruct (truthy (runningAtMs (state j))); [done|].
  destruct (nextRunAtMs (state j)) as [v|]; [|done].
  apply Z.leb_gt. by apply Hlater.
Qed.

Lemma isDue_disabled t j : isEnabled j = false -> isDue t j = false.
Proof. intros Hen. unfold isDue. by rewrite Hen. Qed.

Lemma strictlyAfter_next eval s now t next v :
  strictlyAfter eval -> eval s now = Returned next -> t <= now -> next = Some v -> t < v.
Proof. intros Hafter Hev Hle ->. apply Hafter in Hev. lia. Qed.

(** The evaluator of the specification, without cron schedules, lies
    strictly after the reference time. *)
Lemma specNextRunAtMs_strictlyAfter : strictlyAfter (specNextRunAtMs noCron).
Proof.
  intros [atMs|intervalMs anchorMs|expression timezone] t v; cbn; [| |done].
  - destruct (Z.ltb_spec t atMs); intros [= <-]. done.
  - destruct (Z.leb_spec intervalMs 0) as [|Hpos]; [done|].
    destruct (specNextRunAtMs_every noCron intervalMs anchorMs t Hpos)
      as (t' & k & Heq & _ & _ & Hlt & _).
    cbn in Heq. destruct (Z.leb_spec intervalMs 0); [lia|].
    rewrite Heq. by intros [= <-].
Qed.

(** X13: with an evaluator whose times lie strictly after the reference
    time, and unique ids, a job that was just completed is not due at the
    completion time or before it: [getDueJobs] at such a time returns no
    job with its id, in whichever branch [markJobCompleted] ended. *)
Theorem completed_job_is_not_due
    (eval : CronSchedule -> Z -> Outcome (option Z))
    (jobId : string) (res : RunResult) (now t : Z) (jobs : Jobs) (job : CronJob) :
  strictlyAfter eval ->
  NoDup (id <$> jobs) ->
  result (markJobCompleted eval jobId res now) jobs = Ok job ->
  t <= now ->
  exists due,
    result (getDueJobs t) (stored (markJobCompleted eval jobId res now) jobs) = Ok due
    /\ forall j, j ∈ due -> id j <> jobId.
Proof.
  intros Hafter Hnd Hok Hle. eexists. split; [reflexivity|].
  intros j [Hdue Hj]%list_elem_of_filter Hid. apply Is_true_true in Hdue.
  revert Hok Hj. unfold result, stored.
  pose proof (markJobCompleted_cases eval jobId res now jobs) as Hc.
  destruct (findIndex jobId jobs) as [[i found]|] eqn:Hfind; [|by rewrite Hc].
  apply findIndex_Some in Hfind as (Hi & Hfid & _).
  assert (forall job', id job' = id found -> isDue t job' = false ->
            j ∈ <[i := job']> jobs -> False) as Hslot.
  { intros job' Hid' Hnot Hj.
    assert (j = job') as -> by (eapply unique_after_insert; eauto; congruence).
    congruence. }
  split_completion Hc; rewrite Hc; cbn -[recordRun assignNextRun disableJob];
    intros Hres Hj; try discriminate Hres.
  - by apply elem_of_withoutId in Hj as [Hne _].
  - refine (Hslot _ _ _ Hj); [reflexivity|]. by apply isDue_disabled.
  - refine (Hslot _ _ _ Hj); [reflexivity|]. apply isDue_later. cbn.
    intros w Hw. eapply strictlyAfter_next; eauto.
  - refine (Hslot _ _ _ Hj); [reflexivity|]. by apply isDue_disabled.
Qed.

Lemma completed_job_is_not_due_witness :
  let eval := specNextRunAtMs noCron in
  let res := mkResult StatusOk None 500 in
  exists due,
    result (getDueJobs 60500) (stored (markJobCompleted eval "X" res 60500) scenarioA) = Ok due
    /\ forall j, j ∈ due -> id j <> "X".
Proof.
  intros eval res.
  eapply (completed_job_is_not_due eval "X" res 60500 60500 scenarioA).
  - apply specNextRunAtMs_strictlyAfter.
  - apply NoDup_singleton.
  - reflexivity.
  - lia.
Defined.

(** X14: with such an evaluator, a job created without a [nextRunAtMs] of
    the caller's is not due at its creation time or before it. *)
Theorem created_job_is_not_due
    (eval : CronSchedule -> Z -> Outcome (option Z))
    (uuid : string) (input : CronJobCreate) (now t : Z) (jobs : Jobs) (job : CronJob) :
  strictlyAfter eval ->
  input_state input ≫= ps_nextRunAtMs = None ->
  result (addJob eval uuid input now) jobs = Ok job ->
  t <= now ->
  isDue t job = false.
Proof.
  intros Hafter Hnone Hok Hle. revert Hok. unfold result, addJob.
  destruct (input_enabled input) as [[|]|] eqn:Hen; cbn [notFalse].
  - destruct (eval (input_schedule input) now) as [computed|e] eqn:Hev; cbn; [|done].
    intros [= <-]. apply isDue_later. cbn.
    destruct (input_state input) as [p|]; cbn in Hnone |- *.
    + rewrite Hnone. cbn. intros v Hv. eapply strictlyAfter_next; eauto.
    + intros v Hv. eapply strictlyAfter_next; eauto.
  - cbn. intros [= <-]. by apply isDue_disabled.
  - destruct (eval (input_schedule input) now) as [computed|e]; cbn; [|done].
    intros [= <-]. by apply isDue_disabled.
Qed.

Lemma created_job_is_not_due_witness :
  let eval := specNextRunAtMs noCron in
  exists job,
    result (addJob eval "Z" (plainInput (Every 60000 0) true None) 120000) [] = Ok job
    /\ nextRunAtMs (state job) = Some 180000
    /\ isDue 120000 job = false.
Proof.
  intros eval. eexists. split; [reflexivity|]. split; [reflexivity|].
  eapply (created_job_is_not_due eval "Z" (plainInput (Every 60000 0) true None)
            120000 120000 []).
  - apply specNextRunAtMs_strictlyAfter.
  - reflexivity.
  - reflexivity.
  - lia.
Defined.

(** X15: with such an evaluator, an update whose patch carries a schedule
    or [enabled] never leaves the job due at the time of the call: an
    enabled job gets the evaluator's time, whatever [nextRunAtMs] the patch
    itself carried in its state, and a disabled one is not due at all. *)
Theorem rescheduled_job_is_not_due
    (eval : CronSchedule -> Z -> Outcome (option Z))
    (jobId : string) (patch : CronJobPatch) (now t : Z) (jobs : Jobs) (job : CronJob) :
  strictlyAfter eval ->
  isDefined (patch_schedule patch) || isDefined (patch_enabled patch) = true ->
  result (updateJob eval jobId patch now) jobs = Ok job ->
  t <= now ->
  isDue t job = false.
Proof.
  intros Hafter Hpatch Hok Hle. revert Hok. unfold result.
  pose proof (updateJob_cases eval jobId patch now jobs) as Hc.
  destruct (findIndex jobId jobs) as [[i found]|]; [|by rewrite Hc].
  cbn zeta in Hc. rewrite Hpatch, andb_true_r in Hc.
  destruct (isEnabled (applyPatch patch now found)) eqn:Hen; cbn [negb] in Hc.
  - destruct (eval (schedule (applyPatch patch now found)) now) as [next|e] eqn:Hev;
      rewrite Hc; [|done].
    cbn -[applyPatch assignNextRun]. intros [= <-]. apply isDue_later.
    intros v Hv. eapply strictlyAfter_next; eauto.
  - rewrite Hc. cbn -[applyPatch assignNextRun]. intros [= <-].
    by apply isDue_disabled.
Qed.

Lemma rescheduled_job_is_not_due_witness :
  let eval := specNextRunAtMs noCron in
  let past := mkPartialState (Some (Some 1)) None None None None None in
  let patch :=
    mkPatch None None None (Some (Every 1000 0)) None None None None None None (Some past) in
  exists job,
    result (updateJob eval "a" patch 5000) [plainJob "a" (Every 60000 0) (Some 60000)] = Ok job
    /\ nextRunAtMs (state job) = Some 6000
    /\ isDue 5000 job = false.
Proof.
  intros eval past patch. eexists. split; [reflexivity|]. split; [reflexivity|].
  eapply (rescheduled_job_is_not_due eval "a" patch 5000 5000
            [plainJob "a" (Every 60000 0) (Some 60000)]).
  - apply specNextRunAtMs_strictlyAfter.
  - reflexivity.
  - reflexivity.
  - lia.
Defined.

(** ** Overlapping callers *)

Lemma stepsLeft_stepTask {T} (t : Task T) file :
  stepsLeft (stepTask t file).1 = pred (stepsLeft t).
Proof. by destruct t. Qed.

Lemma stepsLeft_finished {T} (t : Task T) : stepsLeft t = 0%nat -> isFinished t = true.
Proof. by destruct t. Qed.

(** A task advances with each of its own turns and with no other. *)
Lemma stepsLeft_runRace {A B} turns (r : Race A B) :
  stepsLeft (first (runRace turns r)) = (stepsLeft (first r) - turnsOf First turns)%nat
  /\ stepsLeft (second (runRace turns r)) = (stepsLeft (second r) - turnsOf Second turns)%nat.
Proof.
  revert r. induction turns as [|who turns IH]; intros r.
  - cbn. lia.
  - change (runRace (who :: turns) r) with (runRace turns (stepRace who r)).
    destruct (IH (stepRace who r)) as [-> ->]. unfold turnsOf.
    destruct who; rewrite !filter_cons; cbn [stepRace];
      repeat case_decide; try done; cbn [length].
    + destruct (stepTask (first r) (document r)) as [t file] eqn:Hstep. cbn.
      assert (stepsLeft t = pred (stepsLeft (first r))) as ->.
      { by rewrite <- (stepsLeft_stepTask (first r) (document r)), Hstep. }
      split; [|reflexivity]. destruct (stepsLeft (first r)); cbn; lia.
    + destruct (stepTask (second r) (document r)) as [t file] eqn:Hstep. cbn.
      assert (stepsLeft t = pred (stepsLeft (second r))) as ->.
      { by rewrite <- (stepsLeft_stepTask (second r) (document r)), Hstep. }
      split; [reflexivity|]. destruct (stepsLeft (second r)); cbn; lia.
Qed.

(** The run in which the first caller saves before the second loads, and
    the run in which both load before either saves. *)
Lemma runRace_in_sequence {A B} (op1 : Operation A) (op2 : Operation B) file :
  runRace [First; First; Second; Second] (mkRace (Pending op1) (Pending op2) file)
  = mkRace (Finished (result op1 file)) (Finished (result op2 (stored op1 file)))
      (stored op2 (stored op1 file)).
Proof. reflexivity. Qed.

Lemma runRace_overlapped {A B} (op1 : Operation A) (op2 : Operation B) file :
  runRace [First; Second; First; Second] (mkRace (Pending op1) (Pending op2) file)
  = mkRace (Finished (result op1 file)) (Finished (result op2 file))
      (default (stored op1 file) (op2 file).2).
Proof. reflexivity. Qed.

(** A task of an operation whose result does not depend on the document
    it loads stays one, whoever takes the turns. *)
Lemma taskOf_stepTask {T} (op : Operation T) r (t : Task T) file :
  (forall snapshot, result op snapshot = r) ->
  taskOf op r t -> taskOf op r (stepTask t file).1.
Proof.
  intros Hr. destruct t as [op'|op' snapshot|r']; cbn; [done| |done].
  intros ->. apply Hr.
Qed.

Lemma taskOf_runRace {A B} (op1 : Operation A) (op2 : Operation B) r1 r2 turns
    (r : Race A B) :
  (forall snapshot, result op1 snapshot = r1) ->
  (forall snapshot, result op2 snapshot = r2) ->
  taskOf op1 r1 (first r) -> taskOf op2 r2 (second r) ->
  taskOf op1 r1 (first (runRace turns r)) /\ taskOf op2 r2 (second (runRace turns r)).
Proof.
  intros H1 H2. revert r. induction turns as [|who turns IH]; intros r Hf Hs; [done|].
  change (runRace (who :: turns) r) with (runRace turns (stepRace who r)).
  apply IH; destruct who; cbn [stepRace].
  - pose proof (taskOf_stepTask op1 r1 (first r) (document r) H1 Hf) as Hstep.
    by destruct (stepTask (first r) (document r)).
  - by destruct (stepTask (second r) (document r)).
  - by destruct (stepTask (first r) (document r)).
  - pose proof (taskOf_stepTask op2 r2 (second r) (document r) H2 Hs) as Hstep.
    by destruct (stepTask (second r) (document r)).
Qed.

Lemma taskOf_finished {T} (op : Operation T) r (t : Task T) :
  taskOf op r t -> stepsLeft t = 0%nat -> t = Finished r.
Proof. destruct t; cbn; [done|done|]. by intros ->. Qed.

(** A successful [addJob] returns the same job on every document and
    appends it. *)
Lemma addJob_Ok eval uuid input now jobs job :
  result (addJob eval uuid input now) jobs = Ok job ->
  forall file, addJob eval uuid input now file = (Ok job, Some (file ++ [job])).
Proof.
  unfold result, addJob.
  destruct (if notFalse (input_enabled input) then eval (input_schedule input) now
            else Returned None) as [computed|e]; cbn; [|done].
  by intros [= <-] file.
Qed.

(** A successful [updateJob] leaves its job as the one found under the id
    and changes no lookup under another id. *)
Lemma updateJob_lookupJob eval jobId patch now jobs job :
  result (updateJob eval jobId patch now) jobs = Ok job ->
  lookupJob jobId (stored (updateJob eval jobId patch now) jobs) = Some job
  /\ updatedAtMs job = now
  /\ forall other, other <> jobId ->
       lookupJob other (stored (updateJob eval jobId patch now) jobs) = lookupJob other jobs.
Proof.
  intros (i & found & next & Hfind & -> & Hsave)%updateJob_Ok.
  unfold stored. rewrite Hsave. cbn [from_option default Datatypes.id].
  pose proof Hfind as (Hi & Hid & _)%findIndex_Some.
  split; [|split; [reflexivity|]].
  - unfold lookupJob. by erewrite findIndex_insert.
  - intros other Hne. eapply lookupJob_insert_other; [exact Hi|reflexivity|congruence].
Qed.

(** What [updateJob] returns depends on the document only through the job
    found under the id. *)
Lemma updateJob_result eval jobId patch now jobs jobs' :
  lookupJob jobId jobs = lookupJob jobId jobs' ->
  result (updateJob eval jobId patch now) jobs
  = result (updateJob eval jobId patch now) jobs'.
Proof.
  unfold lookupJob, result.
  pose proof (updateJob_cases eval jobId patch now jobs) as Hc.
  pose proof (updateJob_cases eval jobId patch now jobs') as Hc'.
  destruct (findIndex jobId jobs) as [[i found]|],
    (findIndex jobId jobs') as [[i' found']|]; cbn; intros Heq; try discriminate.
  - injection Heq as <-. cbn zeta in Hc, Hc'.
    destruct (isEnabled (applyPatch patch now found)
              && (isDefined (patch_schedule patch) || isDefined (patch_enabled patch))).
    + by destruct (eval (schedule (applyPatch patch now found)) now); rewrite Hc, Hc'.
    + by destruct (negb (isEnabled (applyPatch patch now found))); rewrite Hc, Hc'.
  - by rewrite Hc, Hc'.
Qed.

(** C9, as stated, fails: no lock orders the two cycles.  When two
    [addJob] calls both load the empty document before either saves, the
    second save overwrites the first and job "a" is lost, which neither
    sequential order does. *)
Lemma overlapping_addJob_loses_a_job :
  let eval := specNextRunAtMs noCron in
  let op1 := addJob eval "a" (plainInput (Every 60000 0) false None) 0 in
  let op2 := addJob eval "b" (plainInput (At 5000) false None) 0 in
  (id <$> document (runRace [First; Second; First; Second]
                      (mkRace (Pending op1) (Pending op2) [])) = ["b"])
  /\ (id <$> stored op2 (stored op1 []) = ["a"; "b"])
  /\ ~ serialized op1 op2 [].
Proof.
  intros eval op1 op2. split; [reflexivity|]. split; [reflexivity|].
  intros Hser. specialize (Hser [First; Second; First; Second] eq_refl eq_refl).
  destruct Hser as [Hser|Hser]; vm_compute in Hser; discriminate.
Qed.

(** C9, amended: [addJob] and [updateJob] (hence [markJobRunning]) take no
    lock, and their load-modify-save cycles are not serialized.  On every
    document, two [addJob] calls that succeed and run one after the other
    append both jobs; when both load before either saves, the document
    saved last holds the second job only, which neither sequential order
    leaves; and under every interleaving each call returns its job once it
    has taken its own two steps, whatever the other call has done.  Two
    [updateJob] calls that succeed for different stored ids and overlap in
    this way leave the job of the first call as it was before the update,
    although that call returned the updated job; run one after the other
    they store it; so unless the update changed nothing (the job already
    carried the call's [updatedAtMs]), the two calls are not serialized. *)
Theorem overlapping_calls_are_not_serialized
    (eval : CronSchedule -> Z -> Outcome (option Z)) (file : Jobs) :
  (forall uuid1 input1 now1 uuid2 input2 now2 job1 job2,
      let op1 := addJob eval uuid1 input1 now1 in
      let op2 := addJob eval uuid2 input2 now2 in
      let start := mkRace (Pending op1) (Pending op2) file in
      result op1 file = Ok job1 ->
      result op2 file = Ok job2 ->
      document (runRace [First; First; Second; Second] start) = file ++ [job1; job2]
      /\ document (runRace [First; Second; First; Second] start) = file ++ [job2]
      /\ ~ serialized op1 op2 file
      /\ forall turns,
           ((2 <= turnsOf First turns)%nat ->
            first (runRace turns start) = Finished (Ok job1))
           /\ ((2 <= turnsOf Second turns)%nat ->
               second (runRace turns start) = Finished (Ok job2)))
  /\ (forall id1 patch1 now1 id2 patch2 now2 found1 job1 job2,
        let op1 := updateJob eval id1 patch1 now1 in
        let op2 := updateJob eval id2 patch2 now2 in
        let start := mkRace (Pending op1) (Pending op2) file in
        id1 <> id2 ->
        lookupJob id1 file = Some found1 ->
        result op1 file = Ok job1 ->
        result op2 file = Ok job2 ->
        lookupJob id1 (document (runRace [First; First; Second; Second] start)) = Some job1
        /\ first (runRace [First; Second; First; Second] start) = Finished (Ok job1)
        /\ lookupJob id1 (document (runRace [First; Second; First; Second] start))
           = Some found1
        /\ (updatedAtMs found1 <> now1 -> ~ serialized op1 op2 file)).
Proof.
  split.
  - intros uuid1 input1 now1 uuid2 input2 now2 job1 job2 op1 op2 start Hok1 Hok2.
    pose proof (addJob_Ok _ _ _ _ _ _ Hok1) as Hadd1.
    pose proof (addJob_Ok _ _ _ _ _ _ Hok2) as Hadd2.
    assert (forall f, stored op1 f = f ++ [job1]) as Hst1.
    { intros f. unfold stored, op1. by rewrite Hadd1. }
    assert (forall f, stored op2 f = f ++ [job2]) as Hst2.
    { intros f. unfold stored, op2. by rewrite Hadd2. }
    assert (document (runRace [First; Second; First; Second] start) = file ++ [job2])
      as Hover.
    { unfold start. rewrite runRace_overlapped. cbn [document].
      unfold op2 at 1. by rewrite Hadd2. }
    split; [|split; [done|split]].
    + unfold start. rewrite runRace_in_sequence. cbn [document].
      by rewrite Hst2, Hst1, <- app_assoc.
    + intros Hser.
      specialize (Hser [First; Second; First; Second]). cbn zeta in Hser.
      fold start in Hser. rewrite Hover in Hser. unfold start in Hser.
      rewrite runRace_overlapped in Hser.
      destruct (Hser eq_refl eq_refl) as [Heq|Heq];
        rewrite ?Hst1, ?Hst2 in Heq; apply (f_equal length) in Heq;
        rewrite !length_app in Heq; cbn in Heq; lia.
    + intros turns.
      destruct (stepsLeft_runRace turns start) as [Hleft1 Hleft2].
      destruct (taskOf_runRace op1 op2 (Ok job1) (Ok job2) turns start) as [Htask1 Htask2];
        [intros f; unfold result, op1; by rewrite Hadd1
        |intros f; unfold result, op2; by rewrite Hadd2|done|done|].
      split; intros Hturns.
      * apply (taskOf_finished op1); [done|]. rewrite Hleft1. cbn. lia.
      * apply (taskOf_finished op2); [done|]. rewrite Hleft2. cbn. lia.
  - intros id1 patch1 now1 id2 patch2 now2 found1 job1 job2 op1 op2 start
      Hne Hfound Hok1 Hok2.
    destruct (updateJob_lookupJob _ _ _ _ _ _ Hok1) as (Hmine1 & Hat1 & Hother1).
    destruct (updateJob_lookupJob _ _ _ _ _ _ Hok2) as (Hmine2 & _ & Hother2).
    fold op1 in Hmine1, Hother1. fold op2 in Hmine2, Hother2.
    assert (lookupJob id1 (stored op2 (stored op1 file)) = Some job1) as Hseq.
    { assert (result op2 (stored op1 file) = Ok job2) as Hok2'.
      { unfold op2. rewrite <- Hok2. apply updateJob_result.
        apply Hother1. congruence. }
      destruct (updateJob_lookupJob _ _ _ _ _ _ Hok2') as (_ & _ & Hother2').
      fold op2 in Hother2'. rewrite Hother2' by done. exact Hmine1. }
    assert (lookupJob id1 (document (runRace [First; Second; First; Second] start))
            = Some found1) as Hover.
    { unfold start. rewrite runRace_overlapped. cbn [document].
      change (default (stored op1 file) (op2 file).2)
        with (from_option Datatypes.id (stored op1 file) (op2 file).2).
      destruct (updateJob_Ok _ _ _ _ _ _ Hok2) as (i & found & next & _ & _ & Hsave).
      fold op2 in Hsave. rewrite Hsave. cbn [from_option Datatypes.id].
      unfold stored in Hother2. rewrite Hsave in Hother2.
      cbn [from_option default Datatypes.id] in Hother2.
      by rewrite Hother2. }
    split; [|split; [|split; [done|]]].
    + unfold start. by rewrite runRace_in_sequence.
    + unfold start. rewrite runRace_overlapped. cbn [first]. by rewrite Hok1.
    + intros Hchanged Hser.
      specialize (Hser [First; Second; First; Second]). cbn zeta in Hser.
      fold start in Hser.
      assert (lookupJob id1 (stored op1 (stored op2 file)) = Some job1) as Hseq'.
      { assert (result op1 (stored op2 file) = Ok job1) as Hok1'.
        { unfold op1. rewrite <- Hok1. apply updateJob_result. by apply Hother2. }
        by destruct (updateJob_lookupJob _ _ _ _ _ _ Hok1') as (? & _ & _). }
      assert (isFinished (first (runRace [First; Second; First; Second] start)) = true)
        as Hfin1 by done.
      assert (isFinished (second (runRace [First; Second; First; Second] start)) = true)
        as Hfin2 by done.
      destruct (Hser Hfin1 Hfin2) as [Heq|Heq]; rewrite Heq in Hover; congruence.
Qed.

(** Two creations and two updates on a document with the jobs "a" and
    "b": overlapped, the creation of "c" and the disabling of "a" are
    lost. *)
Lemma overlapping_calls_are_not_serialized_witness :
  let eval := specNextRunAtMs noCron in
  let file := [plainJob "a" (Every 60000 0) (Some 60000); plainJob "b" (At 5000) (Some 5000)] in
  let add1 := addJob eval "c" (plainInput (Every 1000 0) true None) 100 in
  let add2 := addJob eval "d" (plainInput (At 7000) true None) 100 in
  let off1 := updateJob eval "a" (enabledPatch false) 100 in
  let off2 := updateJob eval "b" (enabledPatch false) 100 in
  (id <$> document (runRace [First; Second; First; Second]
                      (mkRace (Pending add1) (Pending add2) file)) = ["a"; "b"; "d"])
  /\ (enabled <$> lookupJob "a" (document (runRace [First; Second; First; Second]
                                   (mkRace (Pending off1) (Pending off2) file)))
      = Some (Some true))
  /\ ~ serialized off1 off2 file.
Proof.
  intros eval file add1 add2 off1 off2.
  destruct (overlapping_calls_are_not_serialized eval file) as [Hadd Hupdate].
  edestruct (Hadd "c" (plainInput (Every 1000 0) true None) 100
               "d" (plainInput (At 7000) true None) 100) as (_ & Hlost & _);
    [reflexivity|reflexivity|].
  edestruct (Hupdate "a" (enabledPatch false) 100 "b" (enabledPatch false) 100)
    as (_ & _ & Hstale & Hnot); [discriminate|reflexivity|reflexivity|reflexivity|].
  split; [|split].
  - unfold add1, add2. rewrite Hlost. reflexivity.
  - unfold off1, off2. rewrite Hstale. reflexivity.
  - apply Hnot. cbn. lia.
Defined.

(** * The context-pruning registry and extension *)

(** X16: the registry is a map on session manager objects.  After a
    registration [getContextPruningRuntime] returns the registered runtime;
    after a registration of [null] it returns [null]; a registration under
    one object changes nothing under another; and a session manager that is
    not an object (a primitive, [null], a function) is never registered and
    never found. *)
Theorem registry_round_trip {Settings : Type}
    (st : PruningState Settings) (key other runtime : positive) :
  getContextPruningRuntime (JsObject key)
    (setContextPruningRuntime (JsObject key) (Some runtime) st) = Some runtime
  /\ getContextPruningRuntime (JsObject key)
       (setContextPruningRuntime (JsObject key) None st) = None
  /\ (other <> key ->
      forall value,
        getContextPruningRuntime (JsObject other)
          (setContextPruningRuntime (JsObject key) value st)
        = getContextPruningRuntime (JsObject other) st)
  /\ (forall sm value,
        registryKey sm = None ->
        setContextPruningRuntime sm value st = st
        /\ getContextPruningRuntime sm (setContextPruningRuntime sm value st) = None).
Proof.
  unfold getContextPruningRuntime, setContextPruningRuntime. cbn.
  split; [by rewrite lookup_insert_eq|]. split; [by rewrite lookup_delete_eq|].
  split.
  - intros Hne [value|]; cbn; [by rewrite lookup_insert_ne|by rewrite lookup_delete_ne].
  - intros sm value Hsm. by rewrite !Hsm.
Qed.

Lemma registry_round_trip_witness :
  getContextPruningRuntime (JsObject 2)
    (setContextPruningRuntime (JsObject 3) (Some 9%positive)
       (setContextPruningRuntime (JsObject 2) (Some 8%positive) (oneSession None)))
  = Some 8%positive.
Proof.
  destruct (registry_round_trip
              (setContextPruningRuntime (JsObject 2) (Some 8%positive) (oneSession None))
              3 2 9) as (_ & _ & Hother & _).
  rewrite Hother by discriminate. reflexivity.
Defined.

Section Handler.

Variables Settings Message Ctx : Type.
Variable mode : Settings -> string.
Variable ttlMs : Settings -> Z.
Variable sessionManager : Ctx -> JsValue.
Variable prune :
  list Message -> Settings -> Ctx -> (string -> bool) -> option Z -> PruneResult Message.

Abbreviation handler := (onContext Settings Message Ctx mode ttlMs sessionManager prune).
Abbreviation handlers := (onContexts Settings Message Ctx mode ttlMs sessionManager prune).

Lemma cacheStillHot_false (runtime : ContextPruningRuntimeValue Settings) now :
  cacheStillHot Settings ttlMs runtime now = false ->
  exists l, lastCacheTouchAt runtime = Some l /\ l <> 0
            /\ 0 < ttlMs (settings runtime) /\ ttlMs (settings runtime) <= now - l.
Proof.
  unfold cacheStillHot, truthy. destruct (lastCacheTouchAt runtime) as [l|]; cbn; [|done].
  destruct (Z.eqb_spec l 0) as [->|Hl]; cbn; [done|].
  destruct (Z.leb_spec (ttlMs (settings runtime)) 0); cbn; [done|].
  destruct (Z.ltb_spec 0 (ttlMs (settings runtime))); cbn; [|lia].
  destruct (Z.ltb_spec (now - l) (ttlMs (settings runtime))); [done|].
  intros _. exists l. repeat split; lia || done.
Qed.

Lemma cacheStillHot_untouched (runtime : ContextPruningRuntimeValue Settings) now :
  truthy (lastCacheTouchAt runtime) = false ->
  cacheStillHot Settings ttlMs runtime now = true.
Proof. intros Hl. unfold cacheStillHot. by rewrite Hl. Qed.

Lemma touch_same (ref : positive) now (st : PruningState Settings) :
  runtimeAt (touch ref now st) ref
  = {| settings := settings (runtimeAt st ref);
       contextWindowTokens := contextWindowTokens (runtimeAt st ref);
       isToolPrunable := isToolPrunable (runtimeAt st ref);
       lastCacheTouchAt := Some now |}.
Proof. unfold touch. cbn. by destruct (decide (ref = ref)). Qed.

(** What one handling leaves of the state. *)
Lemma onContext_state messages ctx nowCheck nowTouch (st : PruningState Settings) :
  let out := handler messages ctx nowCheck nowTouch st in
  REGISTRY out.2 = REGISTRY st
  /\ (out.1 = None -> out.2 = st)
  /\ forall ref,
       getContextPruningRuntime (sessionManager ctx) st <> Some ref ->
       runtimeAt out.2 ref = runtimeAt st ref.
Proof.
  unfold onContext.
  destruct (getContextPruningRuntime (sessionManager ctx) st) as [used|]; [|done].
  destruct (isCacheTtl Settings mode (runtimeAt st used)
            && cacheStillHot Settings ttlMs (runtimeAt st used) nowCheck); [done|].
  destruct (prune messages _ ctx _ _) as [|next]; [done|]. cbn.
  destruct (isCacheTtl Settings mode (runtimeAt st used)); cbn; [|done].
  split; [done|]. split; [done|]. intros ref Hne. case_decide; [congruence|done].
Qed.

End Handler.

(** X17: the handler returns pruned messages only when a runtime is
    registered for the session manager of the context and the pruner made
    another array; in [cache-ttl] mode, moreover, only when the runtime was
    touched before (at a time other than 0), [ttlMs] is positive and at
    least [ttlMs] have passed since the touch. *)
Theorem onContext_prunes_only_when_cold
    {Settings Message Ctx : Type}
    (mode : Settings -> string) (ttlMs : Settings -> Z) (sessionManager : Ctx -> JsValue)
    (prune : list Message -> Settings -> Ctx -> (string -> bool) -> option Z
             -> PruneResult Message)
    (messages : list Message) (ctx : Ctx) (nowCheck nowTouch : Z)
    (st : PruningState Settings) (next : list Message) :
  (onContext Settings Message Ctx mode ttlMs sessionManager prune
     messages ctx nowCheck nowTouch st).1 = Some next ->
  exists ref,
    getContextPruningRuntime (sessionManager ctx) st = Some ref
    /\ prune messages (settings (runtimeAt st ref)) ctx (isToolPrunable (runtimeAt st ref))
         (contextWindowTokens (runtimeAt st ref)) = NewArray next
    /\ (mode (settings (runtimeAt st ref)) = "cache-ttl" ->
        exists l,
          lastCacheTouchAt (runtimeAt st ref) = Some l /\ l <> 0
          /\ 0 < ttlMs (settings (runtimeAt st ref))
          /\ ttlMs (settings (runtimeAt st ref)) <= nowCheck - l).
Proof.
  unfold onContext.
  destruct (getContextPruningRuntime (sessionManager ctx) st) as [ref|]; [|done].
  destruct (isCacheTtl Settings mode (runtimeAt st ref)) eqn:Hmode; cbn [andb].
  - destruct (cacheStillHot Settings ttlMs (runtimeAt st ref) nowCheck) eqn:Hhot; [done|].
    destruct (prune messages _ ctx _ _) as [|next'] eqn:Hprune; [done|].
    intros [= ->]. exists ref. split; [done|]. split; [done|].
    intros _. by apply cacheStillHot_false.
  - destruct (prune messages _ ctx _ _) as [|next'] eqn:Hprune; [done|].
    intros [= ->]. exists ref. split; [done|]. split; [done|].
    intros Hm. unfold isCacheTtl in Hmode. by apply bool_decide_eq_false in Hmode.
Qed.

Lemma onContext_prunes_only_when_cold_witness :
  (handle [1; 2; 3]%nat 400000 400001 (oneSession (Some 100000))).1 = Some [2; 3]%nat
  /\ exists l, Some 100000 = Some l /\ l <> 0 /\ 0 < 300000 /\ 300000 <= 400000 - l.
Proof.
  split; [reflexivity|].
  destruct (onContext_prunes_only_when_cold fst snd (fun ctx => ctx) dropFirst
              [1; 2; 3]%nat (JsObject 1) 400000 400001 (oneSession (Some 100000))
              [2; 3]%nat eq_refl) as (ref & Href & _ & Hcold).
  injection Href as <-. apply Hcold. reflexivity.
Defined.

(** X18: pruning is throttled.  After a handling that pruned in
    [cache-ttl] mode and stored the touch time [nowTouch] (other than 0),
    any handling for the same session manager whose clock is less than
    [ttlMs] after [nowTouch] returns [undefined] and leaves the state as it
    is, whatever the messages. *)
Theorem pruning_is_throttled
    {Settings Message Ctx : Type}
    (mode : Settings -> string) (ttlMs : Settings -> Z) (sessionManager : Ctx -> JsValue)
    (prune : list Message -> Settings -> Ctx -> (string -> bool) -> option Z
             -> PruneResult Message)
    (messages messages' : list Message) (ctx ctx' : Ctx)
    (nowCheck nowTouch nowCheck' nowTouch' : Z)
    (st : PruningState Settings) (ref : positive) (next : list Message) :
  let handler := onContext Settings Message Ctx mode ttlMs sessionManager prune in
  getContextPruningRuntime (sessionManager ctx) st = Some ref ->
  mode (settings (runtimeAt st ref)) = "cache-ttl" ->
  (handler messages ctx nowCheck nowTouch st).1 = Some next ->
  nowTouch <> 0 ->
  sessionManager ctx' = sessionManager ctx ->
  nowCheck' - nowTouch < ttlMs (settings (runtimeAt st ref)) ->
  let st1 := (handler messages ctx nowCheck nowTouch st).2 in
  lastCacheTouchAt (runtimeAt st1 ref) = Some nowTouch
  /\ handler messages' ctx' nowCheck' nowTouch' st1 = (None, st1).
Proof.
  intros handler Href Hmode Hpruned Htouch Hsame Hsoon st1.
  assert (isCacheTtl Settings mode (runtimeAt st ref) = true) as Httl
    by (by apply bool_decide_eq_true).
  assert (handler messages ctx nowCheck nowTouch st = (Some next, touch ref nowTouch st))
    as Hrun.
  { revert Hpruned. subst handler. unfold onContext. rewrite Href, Httl. cbn [andb].
    destruct (cacheStillHot Settings ttlMs (runtimeAt st ref) nowCheck); [done|].
    destruct (prune messages _ ctx _ _) as [|next']; [done|]. cbn. by intros [= ->]. }
  subst st1. rewrite Hrun. cbn [snd]. split; [by rewrite touch_same|].
  subst handler. unfold onContext, getContextPruningRuntime. rewrite Hsame.
  unfold getContextPruningRuntime in Href. cbn [REGISTRY touch].
  destruct (registryKey (sessionManager ctx)) as [key|]; [|done]. rewrite Href.
  unfold isCacheTtl, cacheStillHot, truthy. rewrite touch_same.
  cbn [settings lastCacheTouchAt]. rewrite (bool_decide_eq_true_2 _ Hmode). cbn [andb default from_option Datatypes.id].
  destruct (Z.eqb_spec nowTouch 0); [done|]. cbn [negb orb].
  destruct (Z.leb_spec (ttlMs (settings (runtimeAt st ref))) 0); [done|].
  destruct (Z.ltb_spec 0 (ttlMs (settings (runtimeAt st ref)))); [|lia].
  destruct (Z.ltb_spec (nowCheck' - nowTouch) (ttlMs (settings (runtimeAt st ref))));
    [done|lia].
Qed.

Lemma pruning_is_throttled_witness :
  let st1 := (handle [1; 2; 3]%nat 400000 400001 (oneSession (Some 100000))).2 in
  lastCacheTouchAt (runtimeAt st1 7) = Some 400001
  /\ handle [2; 3]%nat 700000 700001 st1 = (None, st1).
Proof.
  apply (pruning_is_throttled fst snd (fun ctx => ctx) dropFirst
           [1; 2; 3]%nat [2; 3]%nat (JsObject 1) (JsObject 1)
           400000 400001 700000 700001 (oneSession (Some 100000)) 7 [2; 3]%nat);
    try reflexivity; lia.
Defined.

Lemma getContextPruningRuntime_registry {Settings : Type}
    (sm : JsValue) (st st' : PruningState Settings) :
  REGISTRY st' = REGISTRY st ->
  getContextPruningRuntime sm st' = getContextPruningRuntime sm st.
Proof. unfold getContextPruningRuntime. by intros ->. Qed.

(** X19: in [cache-ttl] mode the handler never starts pruning by itself.
    While a runtime object has no touch time (or the touch time 0), every
    [context] event of a session manager registered with it is answered with
    [undefined], over any run of events and whatever the pruner would do;
    the object itself stays as it is, so only a new registration can change
    that. *)
Theorem cache_ttl_never_starts
    {Settings Message Ctx : Type}
    (mode : Settings -> string) (ttlMs : Settings -> Z) (sessionManager : Ctx -> JsValue)
    (prune : list Message -> Settings -> Ctx -> (string -> bool) -> option Z
             -> PruneResult Message)
    (calls : list (ContextCall Message Ctx)) (st : PruningState Settings)
    (ref : positive) :
  mode (settings (runtimeAt st ref)) = "cache-ttl" ->
  truthy (lastCacheTouchAt (runtimeAt st ref)) = false ->
  let out := onContexts Settings Message Ctx mode ttlMs sessionManager prune calls st in
  runtimeAt out.2 ref = runtimeAt st ref
  /\ REGISTRY out.2 = REGISTRY st
  /\ forall k c,
       calls !! k = Some c ->
       getContextPruningRuntime (sessionManager (call_ctx c)) st = Some ref ->
       out.1 !! k = Some None.
Proof.
  revert st. induction calls as [|c rest IH]; intros st Hmode Hcold; cbn zeta.
  - split; [done|]. split; [done|]. by intros k c [=].
  - cbn [onContexts].
    pose proof (onContext_state Settings Message Ctx mode ttlMs sessionManager prune
                  (call_messages c) (call_ctx c) (call_nowCheck c) (call_nowTouch c) st)
      as (Hreg & Hnone & Hother).
    assert (getContextPruningRuntime (sessionManager (call_ctx c)) st = Some ref ->
            onContext Settings Message Ctx mode ttlMs sessionManager prune
              (call_messages c) (call_ctx c) (call_nowCheck c) (call_nowTouch c) st
            = (None, st)) as Hhere.
    { intros Href. unfold onContext. rewrite Href.
      rewrite (cacheStillHot_untouched Settings ttlMs _ _ Hcold).
      unfold isCacheTtl. by rewrite (bool_decide_eq_true_2 _ Hmode). }
    destruct (onContext Settings Message Ctx mode ttlMs sessionManager prune
                (call_messages c) (call_ctx c) (call_nowCheck c) (call_nowTouch c) st)
      as [r st1] eqn:Hstep.
    cbn [fst snd] in Hreg, Hnone, Hother.
    assert (runtimeAt st1 ref = runtimeAt st ref) as Hsame.
    { destruct (decide (getContextPruningRuntime (sessionManager (call_ctx c)) st
                        = Some ref)) as [Href|Href].
      - specialize (Hhere Href). by injection Hhere as _ <-.
      - by apply Hother. }
    specialize (IH st1). rewrite Hsame in IH. specialize (IH Hmode Hcold).
    destruct (onContexts Settings Message Ctx mode ttlMs sessionManager prune rest st1)
      as [rs st2]. cbn [fst snd] in IH |- *. destruct IH as (Hrt & Hreg2 & Hrest).
    split; [done|]. split; [congruence|].
    intros [|k] c' Hk Href; cbn in Hk |- *.
    + injection Hk as <-. specialize (Hhere Href). by injection Hhere as ->.
    + apply (Hrest k c' Hk). by rewrite (getContextPruningRuntime_registry _ st st1).
Qed.

Lemma cache_ttl_never_starts_witness :
  let calls := [mkContextCall [1; 2; 3]%nat (JsObject 1) 400000 400001;
                mkContextCall [4; 5]%nat (JsObject 1) 900000 900001] in
  let out := onContexts (string * Z) nat JsValue fst snd (fun ctx => ctx) dropFirst calls
               (oneSession None) in
  out.1 !! 0%nat = Some None /\ out.1 !! 1%nat = Some None.
Proof.
  intros calls out.
  destruct (cache_ttl_never_starts fst snd (fun ctx => ctx) dropFirst calls
              (oneSession None) 7 eq_refl eq_refl) as (_ & _ & Hnone).
  split.
  - exact (Hnone 0%nat _ eq_refl eq_refl).
  - exact (Hnone 1%nat _ eq_refl eq_refl).
Defined.

(** * The command [cron complete] *)

Lemma markJobCompleted_failure eval jobId res now jobs e :
  result (markJobCompleted eval jobId res now) jobs = Failure e ->
  stored (markJobCompleted eval jobId res now) jobs = jobs.
Proof.
  unfold result, stored.
  pose proof (markJobCompleted_cases eval jobId res now jobs) as Hc.
  destruct (findIndex jobId jobs) as [[i found]|]; [|by rewrite Hc].
  split_completion Hc; by rewrite Hc.
Qed.

(** X20: [cron complete] changes the store only when it prints a job.
    Without [--local], or with a status other than [ok], [error] and
    [skipped], it exits with an error before the store is read; when
    [markJobCompleted] fails it exits with that error and the store as it
    was.  When it prints a job, that job is the one [markJobCompleted]
    returned for the parsed status, with the duration 0 if the option is not
    a number. *)
Theorem completeCommand_all_or_nothing
    (parseInt : string -> option Z) (eval : CronSchedule -> Z -> Outcome (option Z))
    (jobId : string) (local : option bool) (statusOption : string)
    (errorOption : option string) (duration : string) (now : Z) (jobs : Jobs) :
  match completeCommand parseInt eval jobId local statusOption errorOption duration now jobs with
  | (ExitedWith _, after) => after = jobs
  | (Logged job, after) =>
      local = Some true
      /\ exists st,
           statusOfOption statusOption = Some st
           /\ let op := markJobCompleted eval jobId
                          (mkResult st errorOption (default 0 (parseInt duration))) now in
              result op jobs = Ok job /\ after = stored op jobs
  end.
Proof.
  unfold completeCommand, isLocalMode.
  destruct local as [[|]|]; cbn [truthyBool negb]; try done.
  destruct (statusOfOption statusOption) as [st|]; [|done]. cbn zeta.
  destruct (result (markJobCompleted eval jobId _ now) jobs) as [job|e] eqn:Hres.
  - split; [done|]. by exists st.
  - by apply markJobCompleted_failure in Hres.
Qed.

(** * The browser agent *)

Lemma length_truncationNotice : length truncationNotice = 33%nat.
Proof. reflexivity. Qed.

Lemma clipSnapshot_spec text :
  (length (clipSnapshot text) <= N.to_nat MAX_SNAPSHOT_CHARS + 33)%nat
  /\ ((length text <= N.to_nat MAX_SNAPSHOT_CHARS)%nat -> clipSnapshot text = text)
  /\ ((N.to_nat MAX_SNAPSHOT_CHARS < length text)%nat ->
      clipSnapshot text = take (N.to_nat MAX_SNAPSHOT_CHARS) text ++ truncationNotice).
Proof.
  unfold clipSnapshot.
  destruct (N.ltb_spec MAX_SNAPSHOT_CHARS (N.of_nat (length text))) as [Hlong|Hshort].
  - split; [|split; [lia|done]].
    rewrite length_app, length_take, length_truncationNotice. lia.
  - split; [lia|]. split; [done|lia].
Qed.

(** X21: a snapshot is bounded.  Whenever one of the two snapshot calls
    of the page resolves, [takeSnapshot] returns at most 50000 code units
    followed, if it cut, by the notice of 33 units: the text as it is when
    it has at most 50000 units, its first 50000 units and the notice
    otherwise.  The call [_snapshotForAI] is preferred; when the page lacks
    it or it rejects, the aria snapshot is used. *)
Theorem takeSnapshot_bounded (snapshotForAI : option SnapshotCall)
    (ariaSnapshot : SnapshotCall) (source : option (list N)) :
  snapshotForAI = Some (Resolved source)
  \/ ((snapshotForAI = None \/ exists m, snapshotForAI = Some (Rejected m))
      /\ ariaSnapshot = Resolved source) ->
  let text := default [] source in
  let snapshot := takeSnapshot snapshotForAI ariaSnapshot in
  (length snapshot <= N.to_nat MAX_SNAPSHOT_CHARS + 33)%nat
  /\ ((length text <= N.to_nat MAX_SNAPSHOT_CHARS)%nat -> snapshot = text)
  /\ ((N.to_nat MAX_SNAPSHOT_CHARS < length text)%nat ->
      snapshot = take (N.to_nat MAX_SNAPSHOT_CHARS) text ++ truncationNotice).
Proof.
  intros Hsource text snapshot.
  assert (snapshot = clipSnapshot text) as ->; [|apply clipSnapshot_spec].
  subst snapshot text. unfold takeSnapshot.
  destruct Hsource as [->|[[->|[m ->]] ->]]; reflexivity.
Qed.

Lemma takeSnapshot_bounded_witness :
  takeSnapshot (Some (Rejected (codeUnits "timeout"))) (Resolved (Some (codeUnits "- button")))
  = codeUnits "- button".
Proof.
  edestruct (takeSnapshot_bounded (Some (Rejected (codeUnits "timeout")))
               (Resolved (Some (codeUnits "- button"))) (Some (codeUnits "- button")))
    as (_ & Hshort & _).
  - right. split; [right; by eexists|reflexivity].
  - apply Hshort. cbn [default from_option Datatypes.id].
    change (length (codeUnits "- button")) with 8%nat. unfold MAX_SNAPSHOT_CHARS. lia.
Defined.

Lemma prefix_app p s : String.prefix p (p +:+ s) = true.
Proof.
  induction p as [|a p IH]; [by destruct s|].
  change (String a p +:+ s) with (String a (p +:+ s)). cbn [String.prefix].
  destruct (Ascii.ascii_dec a a) as [_|Hne]; [exact IH|by destruct Hne].
Qed.

Lemma sliceFrom_app p s n : n = String.length p -> sliceFrom n (p +:+ s) = s.
Proof.
  intros ->. induction p as [|a p IH]; [by destruct s|].
  change (String a p +:+ s) with (String a (p +:+ s)). exact IH.
Qed.

(** X22: the four spellings of an element reference name one element.
    For a reference that starts neither with "@" nor with "ref=",
    [resolveRef] builds the same selector "aria-ref=<ref>" from [<ref>],
    [@<ref>], [ref=<ref>] and [@ref=<ref>]. *)
Theorem resolveRef_spellings (ref : string) :
  String.prefix "@" ref = false ->
  String.prefix "ref=" ref = false ->
  resolveRef ref = "aria-ref=" +:+ ref
  /\ resolveRef ("@" +:+ ref) = "aria-ref=" +:+ ref
  /\ resolveRef ("ref=" +:+ ref) = "aria-ref=" +:+ ref
  /\ resolveRef ("@ref=" +:+ ref) = "aria-ref=" +:+ ref.
Proof.
  intros Hat Href. unfold resolveRef.
  split; [|split; [|split]]; cbn zeta.
  - by rewrite Hat, Href.
  - rewrite (prefix_app "@" ref), (sliceFrom_app "@" ref 1 eq_refl). by rewrite Href.
  - change (String.prefix "@" ("ref=" +:+ ref)) with false. cbn match.
    by rewrite (prefix_app "ref=" ref), (sliceFrom_app "ref=" ref 4 eq_refl).
  - change ("@ref=" +:+ ref) with ("@" +:+ ("ref=" +:+ ref)).
    rewrite (prefix_app "@" ("ref=" +:+ ref)),
      (sliceFrom_app "@" ("ref=" +:+ ref) 1 eq_refl).
    by rewrite (prefix_app "ref=" ref), (sliceFrom_app "ref=" ref 4 eq_refl).
Qed.

Lemma resolveRef_spellings_witness :
  resolveRef "e3" = "aria-ref=e3"
  /\ resolveRef "@e3" = "aria-ref=e3"
  /\ resolveRef "ref=e3" = "aria-ref=e3"
  /\ resolveRef "@ref=e3" = "aria-ref=e3".
Proof. apply (resolveRef_spellings "e3"); reflexivity. Defined.
